(** * A set-associative, LRU-managed TLB simulator: [tlb_sim.py]

    Shallow embedding of the simulation core of [src/tlb_sim.py]
    (class [SetAssociativeTLB], [generate_trace], [run_tlb_sim]) and the
    properties of its specification.

    Conventions of the embedding:
    - Python integers are [Z]; [//] is [Z.div] and [%] is [Z.modulo] (both
      floor, as in Python); [&] is [Z.land].
    - A [collections.deque] is a [list Z], leftmost element first.
    - An exception is a value of type [exn]; code that may raise returns
      [res A].
    - A Python float is the rational it denotes, in [Q].  [run_tlb_sim]
      keeps [hits / accesses] and [total_time / accesses] as the quotients
      themselves; [to_double] is the rounding Python's [/] does, and
      [run_tlb_sim_doubles] is the call with the two results rounded. *)

From Stdlib Require Import ZArith QArith Qround Qpower Qabs Lia Lqa.
From Stdlib Require Import DecimalString.
From stdpp Require Import base list strings pretty.

Local Open Scope Z_scope.

(** ** Exceptions *)

Inductive exn : Set :=
| AssertionError
| IndexError
| ValueError
| ZeroDivisionError
| OverflowError.

Inductive res (A : Type) : Type :=
| Ok (a : A)
| Raise (e : exn).
Arguments Ok {A} a.
Arguments Raise {A} e.

#[global] Instance res_ret : MRet res := λ A a, Ok a.
#[global] Instance res_bind : MBind res := λ A B k r,
  match r with
  | Ok a => k a
  | Raise e => Raise e
  end.

(** [assert c] *)
Definition py_assert (c : bool) : res unit :=
  if c then Ok tt else Raise AssertionError.

(** ** Python containers *)

(** [l[i]] position: a negative index counts from the end, anything outside
    [-len, len) raises [IndexError]. *)
Definition list_index {A} (l : list A) (i : Z) : res nat :=
  let n := Z.of_nat (length l) in
  if bool_decide (0 ≤ i < n) then Ok (Z.to_nat i)
  else if bool_decide (- n ≤ i < 0) then Ok (Z.to_nat (i + n))
  else Raise IndexError.

Definition deque_appendleft (x : Z) (d : list Z) : list Z := x :: d.

(** [d.remove(x)]: drops the first occurrence, [ValueError] when absent. *)
Fixpoint deque_remove (x : Z) (d : list Z) : res (list Z) :=
  match d with
  | [] => Raise ValueError
  | y :: d' =>
      if bool_decide (y = x) then Ok d'
      else (r ← deque_remove x d'; Ok (y :: r))
  end.

(** [d.pop()]: drops and returns the rightmost element, [IndexError] on an
    empty deque. *)
Fixpoint deque_pop (d : list Z) : res (Z * list Z) :=
  match d with
  | [] => Raise IndexError
  | [x] => Ok (x, [])
  | y :: d' => (r ← deque_pop d'; Ok (r.1, y :: r.2))
  end.

(** ** class SetAssociativeTLB *)

Record SetAssociativeTLB : Type := mkTLB {
  sets : Z;
  ways : Z;
  buckets : list (list Z);
  mask : Z
}.

(** [SetAssociativeTLB.__init__] *)
Definition __init__ (sets ways : Z) : res SetAssociativeTLB :=
  _ ← py_assert (bool_decide (sets > 0) && bool_decide (ways > 0));
  let buckets := replicate (Z.to_nat sets) ([] : list Z) in
  let mask := sets - 1 in
  _ ← py_assert (bool_decide (Z.land sets mask = 0));
  Ok (mkTLB sets ways buckets mask).

(** [SetAssociativeTLB._index] *)
Definition _index (self : SetAssociativeTLB) (vpn : Z) : Z :=
  Z.land vpn (mask self).

Definition set_buckets (self : SetAssociativeTLB) (bs : list (list Z)) :
    SetAssociativeTLB :=
  mkTLB (sets self) (ways self) bs (mask self).

(** The [for tag in bucket] loop of [access]: [rest] is what is left to
    iterate over.  [Some r] is the early [return True] with the bucket as
    the loop body leaves it, [None] is the loop running to its end. *)
Fixpoint access_scan (vpn : Z) (bucket rest : list Z) : option (res (list Z)) :=
  match rest with
  | [] => None
  | tag :: rest' =>
      if bool_decide (tag = vpn) then
        Some (b ← deque_remove tag bucket; Ok (deque_appendleft tag b))
      else access_scan vpn bucket rest'
  end.

(** [SetAssociativeTLB.access]: the returned pair is the result and the
    object after the call. *)
Definition access (self : SetAssociativeTLB) (vpn : Z) :
    res (bool * SetAssociativeTLB) :=
  let idx := _index self vpn in
  i ← list_index (buckets self) idx;
  match buckets self !! i with
  | None => Raise IndexError
  | Some bucket =>
      match access_scan vpn bucket bucket with
      | Some r =>
          b ← r;
          Ok (true, set_buckets self (<[i := b]> (buckets self)))
      | None =>
          b ← (if bool_decide (Z.of_nat (length bucket) >= ways self)
                 then (p ← deque_pop bucket; Ok p.2)
                 else Ok bucket);
          Ok (false, set_buckets self (<[i := deque_appendleft vpn b]> (buckets self)))
      end
  end.

(** A sequence of [access] calls on one object, results in call order. *)
Fixpoint access_all (self : SetAssociativeTLB) (vpns : list Z) :
    res (list bool * SetAssociativeTLB) :=
  match vpns with
  | [] => Ok ([], self)
  | vpn :: vpns' =>
      r ← access self vpn;
      rs ← access_all r.2 vpns';
      Ok (r.1 :: rs.1, rs.2)
  end.

(** ** The [random] module

    The generator itself (CPython's Mersenne Twister) is not part of the
    program; it is an interface.  [G] is the state of the module-level
    generator.  [random.seed(a)] overwrites that state with one computed
    from [a] alone, [random.random()] yields a float of [0, 1), and
    [_randbelow(n)] is the primitive under [randrange] and [randint]. *)

Class Random (G : Type) : Type := {
  rnd_seed : Z → G;
  rnd_random : G → Q * G;
  rnd_below : Z → G → Z * G
}.

(** What the library promises of the two draws. *)
Class RandomLaws (G : Type) `{Random G} : Prop := {
  rnd_random_range g : (0 <= (rnd_random g).1)%Q ∧ ((rnd_random g).1 < 1)%Q;
  rnd_below_range n g : 0 < n → 0 ≤ (rnd_below n g).1 < n
}.

(** ** The process: generator state and standard output *)

Record World (G : Type) : Type := mkWorld {
  rng : G;
  stdout : list string
}.
Arguments mkWorld {G} rng stdout.
Arguments rng {G} w.
Arguments stdout {G} w.

(** A command runs in a world and leaves a world behind, also when it
    raises. *)
Definition M (G A : Type) : Type := World G → res A * World G.

#[global] Instance M_ret {G} : MRet (M G) := λ A a w, (Ok a, w).
#[global] Instance M_bind {G} : MBind (M G) := λ A B k c w,
  match c w with
  | (Ok a, w') => k a w'
  | (Raise e, w') => (Raise e, w')
  end.

Definition lift {G A} (r : res A) : M G A := λ w, (r, w).

Section Program.
Context {G : Type} `{Random G}.

(** [random.seed(a)] *)
Definition random_seed (a : Z) : M G unit :=
  λ w, (Ok tt, mkWorld (rnd_seed a) (stdout w)).

(** [random.random()] *)
Definition random : M G Q :=
  λ w, let r := rnd_random (rng w) in (Ok r.1, mkWorld r.2 (stdout w)).

Definition randbelow (n : Z) : M G Z :=
  λ w, let r := rnd_below n (rng w) in (Ok r.1, mkWorld r.2 (stdout w)).

(** [random.randrange(stop)]: [ValueError] on an empty range. *)
Definition randrange (stop : Z) : M G Z :=
  if bool_decide (stop > 0) then randbelow stop else lift (Raise ValueError).

(** [random.randint(a, b)] is [randrange(a, b + 1)]. *)
Definition randint (a b : Z) : M G Z :=
  let width := b + 1 - a in
  if bool_decide (width > 0) then (r ← randbelow width; mret (a + r))
  else lift (Raise ValueError).

(** [print(s, end="")] *)
Definition print (s : string) : M G unit :=
  λ w, (Ok tt, mkWorld (rng w) (stdout w ++ [s])).

(** [a % b] *)
Definition py_mod (a b : Z) : res Z :=
  if bool_decide (b = 0) then Raise ZeroDivisionError else Ok (a `mod` b).

(** [a / b] on integers: the quotient itself, before the rounding to a
    double that [to_double] does. *)
Definition py_truediv (a b : Z) : res Q :=
  if bool_decide (b = 0) then Raise ZeroDivisionError
  else Ok (inject_Z a / inject_Z b)%Q.

(** *** generate_trace *)

(** The bounds handed to [randint]: [-locality_window // 2] negates first
    and divides after. *)
Definition delta_bounds (locality_window : Z) : Z * Z :=
  ((- locality_window) `div` 2, locality_window `div` 2).

(** One turn of the [for _ in range(n_accesses)] loop: the pair appended to
    [refs] and the value of [current] afterwards. *)
Definition trace_step (vpages page_size : Z) (locality_prob : Q)
    (locality_window : Z) (current : Z) : M G ((Z * Z) * Z) :=
  f ← random;
  vc ← (if negb (Qle_bool locality_prob f) then
          delta ← randint (delta_bounds locality_window).1
                          (delta_bounds locality_window).2;
          vpn ← lift (py_mod (current + delta) vpages);
          mret (vpn, current)
        else
          vpn ← randrange vpages;
          mret (vpn, vpn));
  offset ← randrange page_size;
  mret ((vc.1, offset), vc.2).

Fixpoint trace_loop (n : nat) (vpages page_size : Z) (locality_prob : Q)
    (locality_window : Z) (refs : list (Z * Z)) (current : Z) :
    M G (list (Z * Z)) :=
  match n with
  | O => mret refs
  | S n' =>
      r ← trace_step vpages page_size locality_prob locality_window current;
      trace_loop n' vpages page_size locality_prob locality_window
        (refs ++ [r.1]) r.2
  end.

Definition generate_trace (n_accesses vpages page_size : Z)
    (locality_prob : Q) (locality_window seed : Z) : M G (list (Z * Z)) :=
  _ ← random_seed seed;
  current ← randrange vpages;
  trace_loop (Z.to_nat n_accesses) vpages page_size locality_prob
    locality_window [] current.

(** *** run_tlb_sim *)

Record Params : Type := mkParams {
  p_sets : Z; p_ways : Z; p_vpages : Z; p_page_size : Z; p_n_accesses : Z;
  p_locality_prob : Q; p_locality_window : Z;
  p_t_tlb : Z; p_t_mem : Z; p_t_pagewalk : Z; p_seed : Z
}.

Record Result : Type := mkResult {
  accesses : Z;
  hits : Z;
  misses : Z;
  hit_rate : Q;
  EMAT : Q;
  params : Params
}.

(** [s * n] on strings *)
Definition str_mul (s : string) (n : Z) : string :=
  Nat.iter (Z.to_nat n) (String.append s) "".

(** [f"{n:3d}"] *)
Definition fmt_3d (n : Z) : string :=
  let s := pretty n in
  str_mul " " (3 - Z.of_nat (String.length s)) +:+ s.

(** The text of one progress report.  [int(x / y)] is taken on the exact
    quotient, which is what the float division gives for the operands that
    occur here (at most a few thousand in the second, and in the first
    whenever [accesses] is below 2^45). *)
Definition progress_line (i accesses : Z) : string :=
  let pct := Z.quot (i * 100) accesses in
  let bar_len := 40 in
  let filled := Z.quot (bar_len * pct) 100 in
  let bar := str_mul "█" filled +:+ str_mul "·" (bar_len - filled) in
  String (Ascii.ascii_of_nat 13) "Progreso: [" +:+ bar +:+ "] " +:+ fmt_3d pct +:+ "%   ".

(** The local variables the main loop updates. *)
Record Loop : Type := mkLoop {
  l_tlb : SetAssociativeTLB;
  l_hits : Z;
  l_total_time : Z
}.

(** [for i, (vpn, _) in enumerate(trace, start=1)]: [trace] is what is left
    to iterate over and [i] the number of its first element. *)
Fixpoint sim_loop (show_progress : bool) (accesses step : Z)
    (t_tlb t_mem t_pagewalk : Z) (trace : list (Z * Z)) (i : Z) (st : Loop) :
    M G Loop :=
  match trace with
  | [] => mret st
  | (vpn, _) :: trace' =>
      r ← lift (access (l_tlb st) vpn);
      let st' :=
        if r.1 : bool then
          mkLoop r.2 (l_hits st + 1) (l_total_time st + (t_tlb + t_mem))
        else
          mkLoop r.2 (l_hits st) (l_total_time st + (t_tlb + t_pagewalk + t_mem)) in
      _ ← (if show_progress &&
              (bool_decide (i `mod` step = 0) || bool_decide (i = accesses))
           then print (progress_line i accesses) else mret tt);
      sim_loop show_progress accesses step t_tlb t_mem t_pagewalk trace'
        (i + 1) st'
  end.

Definition run_tlb_sim (sets ways vpages page_size n_accesses : Z)
    (locality_prob : Q) (locality_window t_tlb t_mem t_pagewalk seed : Z)
    (show_progress : bool) : M G Result :=
  tlb ← lift (__init__ sets ways);
  trace ← generate_trace n_accesses vpages page_size locality_prob
            locality_window seed;
  let hits := 0 in
  let total_time := 0 in
  let accesses := Z.of_nat (length trace) in
  let step := Z.max 1 (accesses `div` 50) in
  st ← sim_loop show_progress accesses step t_tlb t_mem t_pagewalk trace 1
         (mkLoop tlb hits total_time);
  _ ← (if show_progress then print (String (Ascii.ascii_of_nat 10) "") else mret tt);
  hit_rate ← lift (py_truediv (l_hits st) accesses);
  emat ← lift (py_truediv (l_total_time st) accesses);
  mret (mkResult accesses (l_hits st) (accesses - l_hits st) hit_rate emat
          (mkParams sets ways vpages page_size n_accesses locality_prob
             locality_window t_tlb t_mem t_pagewalk seed)).

End Program.

(** ** Doubles

    [a / b] on two integers is the double nearest to the quotient, ties
    going to the even significand, and [OverflowError] when that double
    would be 2^1024 or more in magnitude.  A double has 53 significant
    bits and no unit in the last place below 2^-1074. *)

(** Round to the nearest integer, ties to even. *)
Definition rne (x : Q) : Z :=
  let f := Qfloor x in
  match (x - inject_Z f ?= 1 # 2)%Q with
  | Lt => f
  | Gt => f + 1
  | Eq => if Z.even f then f else f + 1
  end.

(** For [x > 0], the [e] with [2^e <= x < 2^(e+1)]. *)
Definition ilog2 (x : Q) : Z :=
  let d := Z.log2 (Qnum x) - Z.log2 (Z.pos (Qden x)) in
  if Qle_bool (2 ^ d) x then d else d - 1.

(** The exponent of the unit in the last place of the doubles around
    [x > 0]. *)
Definition ulp_exp (x : Q) : Z := Z.max (ilog2 x - 52) (-1074).

Definition round_pos (x : Q) : Q :=
  (inject_Z (rne (x / 2 ^ ulp_exp x)) * 2 ^ ulp_exp x)%Q.

(** The double nearest to [x], were the exponent unbounded above. *)
Definition nearest_double (x : Q) : Q :=
  match (x ?= 0)%Q with
  | Eq => 0%Q
  | Gt => round_pos x
  | Lt => (- round_pos (- x))%Q
  end.

Definition to_double (x : Q) : res Q :=
  let d := nearest_double x in
  if Qle_bool (2 ^ 1024) (Qabs d) then Raise OverflowError else Ok d.

(** The two divisions at the end of [run_tlb_sim], as Python rounds them,
    in the order the code makes them. *)
Definition as_doubles (r : Result) : res Result :=
  hit_rate ← to_double (hit_rate r);
  emat ← to_double (EMAT r);
  Ok (mkResult (accesses r) (hits r) (misses r) hit_rate emat (params r)).

(** [run_tlb_sim] as its caller gets it: the record with [hit_rate] and
    [EMAT] as doubles, or the [OverflowError] of a division. *)
Definition run_tlb_sim_doubles {G : Type} `{Random G}
    (sets ways vpages page_size n_accesses : Z) (locality_prob : Q)
    (locality_window t_tlb t_mem t_pagewalk seed : Z) (show_progress : bool) :
    M G Result :=
  r ← run_tlb_sim sets ways vpages page_size n_accesses locality_prob
        locality_window t_tlb t_mem t_pagewalk seed show_progress;
  lift (as_doubles r).

(** ** The console helpers

    [input] and [print] act on a console of their own: the lines still to
    be read and the texts written so far.  [int(s)] on a string and
    [s.strip()] are the interpreter's; [py_int s = None] is [int(s)]
    raising [ValueError]. *)

(** [is_power_of_two] *)
Definition is_power_of_two (x : Z) : bool :=
  bool_decide (x > 0) && bool_decide (Z.land x (x - 1) = 0).

(** How a read ends: with a value, or with [input] finding no line left
    ([EOFError], which [ask_int] does not catch). *)
Inductive asked (A : Type) : Type :=
| Answer (a : A)
| EOFError.
Arguments Answer {A} a.
Arguments EOFError {A}.

Record Console : Type := mkConsole {
  stdin : list string;
  written : list string
}.

Definition newline : string := String (Ascii.ascii_of_nat 10) "".

(** [str(x)] for [x] an integer or [None] *)
Definition str_opt (x : option Z) : string :=
  match x with
  | Some z => pretty z
  | None => "None"
  end.

Section AskInt.
Context (py_int : string → option Z) (strip : string → string).

(** [ask_int]: one turn of its [while True] per line read.  The result is
    what the call returns or raises, with the console it leaves. *)
Fixpoint ask_int_loop (prompt : string) (default minv maxv : option Z)
    (lines : list string) (out : list string) : asked Z * Console :=
  let out := out ++ [prompt +:+ " [" +:+ str_opt default +:+ "]: "] in
  match lines with
  | [] => (EOFError, mkConsole [] out)
  | line :: lines' =>
      let raw := strip line in
      let parsed :=
        if bool_decide (raw = "") && bool_decide (default ≠ None)
        then default else py_int raw in
      match parsed with
      | None =>
          ask_int_loop prompt default minv maxv lines'
            (out ++ ["  * Ingresa un número entero válido." +:+ newline])
      | Some val =>
          match minv with
          | Some lo =>
              if bool_decide (val < lo) then
                ask_int_loop prompt default minv maxv lines'
                  (out ++ ["  * Debe ser >= " +:+ pretty lo +:+ newline])
              else
                match maxv with
                | Some hi =>
                    if bool_decide (val > hi) then
                      ask_int_loop prompt default minv maxv lines'
                        (out ++ ["  * Debe ser <= " +:+ pretty hi +:+ newline])
                    else (Answer val, mkConsole lines' out)
                | None => (Answer val, mkConsole lines' out)
                end
          | None =>
              match maxv with
              | Some hi =>
                  if bool_decide (val > hi) then
                    ask_int_loop prompt default minv maxv lines'
                      (out ++ ["  * Debe ser <= " +:+ pretty hi +:+ newline])
                  else (Answer val, mkConsole lines' out)
              | None => (Answer val, mkConsole lines' out)
              end
          end
      end
  end.

Definition ask_int (prompt : string) (default minv maxv : option Z)
    (c : Console) : asked Z * Console :=
  ask_int_loop prompt default minv maxv (stdin c) (written c).

End AskInt.

Section AskFloat.
(** Floats as the interpreter has them: [float(s)] on a string
    ([None] is [ValueError]), [str(x)], and the comparisons [<] and [>]. *)
Context {F : Type} (py_float : string → option F) (strip : string → string).
Context (float_str : F → string) (flt fgt : F → F → bool).

Definition str_optf (x : option F) : string :=
  match x with
  | Some v => float_str v
  | None => "None"
  end.

(** [ask_float]: one turn of its [while True] per line read. *)
Fixpoint ask_float_loop (prompt : string) (default minv maxv : option F)
    (lines : list string) (out : list string) : asked F * Console :=
  let out := out ++ [prompt +:+ " [" +:+ str_optf default +:+ "]: "] in
  match lines with
  | [] => (EOFError, mkConsole [] out)
  | line :: lines' =>
      let raw := strip line in
      let parsed :=
        if bool_decide (raw = "") && bool_decide (default ≠ None)
        then default else py_float raw in
      match parsed with
      | None =>
          ask_float_loop prompt default minv maxv lines'
            (out ++ ["  * Ingresa un número válido (puede ser decimal)."
                     +:+ newline])
      | Some val =>
          if match minv with Some lo => flt val lo | None => false end then
            ask_float_loop prompt default minv maxv lines'
              (out ++ ["  * Debe ser >= " +:+ str_optf minv +:+ newline])
          else if match maxv with Some hi => fgt val hi | None => false end then
            ask_float_loop prompt default minv maxv lines'
              (out ++ ["  * Debe ser <= " +:+ str_optf maxv +:+ newline])
          else (Answer val, mkConsole lines' out)
      end
  end.

Definition ask_float (prompt : string) (default minv maxv : option F)
    (c : Console) : asked F * Console :=
  ask_float_loop prompt default minv maxv (stdin c) (written c).

End AskFloat.

(** ** A generator to run the program with

    Its state is a supply of raw 53-bit words, used one per draw and reused
    cyclically; seeding rotates the supply.  [random()] scales the word
    into [0, 1) and [_randbelow(n)] reduces it modulo [n]. *)

Record Script : Type := mkScript { raw : list Z }.

Definition script_next (g : Script) : Z * Script :=
  match raw g with
  | [] => (0, g)
  | x :: xs => (x `mod` 2 ^ 53, mkScript (xs ++ [x]))
  end.

Definition script_words : list Z :=
  [1; 9007199254740991; 4503599627370496; 3; 77; 2 ^ 52 + 5; 12; 0; 2 ^ 53 - 9; 6].

#[global] Instance script_random : Random Script := {
  rnd_seed a := mkScript (rotate (Z.to_nat (Z.abs a)) script_words);
  rnd_random g := let r := script_next g in (r.1 # 2 ^ 53, r.2)%Q;
  rnd_below n g := let r := script_next g in (r.1 `mod` n, r.2)
}.

Definition world0 : World Script := mkWorld (mkScript []) [].

(** A small run: 2 sets, 12 accesses over 64 pages, seed 3. *)
Definition demo_run (ways : Z) (show_progress : bool) :
    res Result * World Script :=
  run_tlb_sim 2 ways 64 256 12 (85 # 100) 4 1 100 300 3 show_progress world0.

Definition demo_params (ways : Z) : Params :=
  mkParams 2 ways 64 256 12 (85 # 100) 4 1 100 300 3.

Definition demo_result_1 : Result :=
  mkResult 12 1 11 (1 # 12) (4512 # 12) (demo_params 1).

Definition demo_result_2 : Result :=
  mkResult 12 4 8 (4 # 12) (3612 # 12) (demo_params 2).

(** ** Vocabulary of the specification *)

Definition pow2 (x : Z) : Prop := ∃ k, 0 ≤ k ∧ x = 2 ^ k.

(** Valid construction parameters. *)
Definition valid_config (sets ways : Z) : Prop :=
  0 < sets ∧ 0 < ways ∧ pow2 sets.

(** The shape [__init__ sets ways] gives an object and [access] keeps. *)
Record tlb_shape (s w : Z) (t : SetAssociativeTLB) : Prop := {
  shape_valid : valid_config s w;
  shape_sets : sets t = s;
  shape_ways : ways t = w;
  shape_mask : mask t = s - 1;
  shape_len : length (buckets t) = Z.to_nat s
}.

(** A set within its associativity and free of duplicates. *)
Definition set_ok (w : Z) (b : list Z) : Prop :=
  0 ≤ Z.of_nat (length b) ≤ w ∧ NoDup b.

Definition tlb_inv (t : SetAssociativeTLB) : Prop :=
  Forall (set_ok (ways t)) (buckets t).

(** The unbounded LRU stack of a set: every VPN that ever mapped to it,
    most recently used first.  A set of [w] ways is meant to hold the first
    [w] entries of it. *)
Definition stack_touch (vpn : Z) (stack : list Z) : list Z :=
  vpn :: filter (λ x, x ≠ vpn) stack.

Definition models (w : Z) (stacks : list (list Z)) (t : SetAssociativeTLB) :
    Prop :=
  Forall NoDup stacks ∧ buckets t = take (Z.to_nat w) <$> stacks.

(** The states a TLB built with [sets = s], [ways = w] goes through. *)
Inductive reachable (s w : Z) : SetAssociativeTLB → Prop :=
| reach_init t :
    __init__ s w = Ok t → reachable s w t
| reach_access t vpn hit t' :
    reachable s w t → access t vpn = Ok (hit, t') → reachable s w t'.

(** Number of hits among the results of a run of accesses, and the time
    the driver charges for them. *)
Definition hit_count (rs : list bool) : Z :=
  Z.of_nat (length (filter (λ hit, hit = true) rs)).

Definition time_cost (t_tlb t_mem t_pagewalk : Z) (rs : list bool) : Z :=
  foldr (λ (hit : bool) acc,
           (if hit then t_tlb + t_mem else t_tlb + t_pagewalk + t_mem) + acc)
        0 rs.

(** What [run_tlb_sim] computes once it holds its TLB and its trace. *)
Definition run_on (tlb : SetAssociativeTLB) (trace : list (Z * Z))
    (t_tlb t_mem t_pagewalk : Z) (p : Params) : res Result :=
  r ← access_all tlb (trace.*1);
  let accesses := Z.of_nat (length trace) in
  hit_rate ← py_truediv (hit_count r.1) accesses;
  emat ← py_truediv (time_cost t_tlb t_mem t_pagewalk r.1) accesses;
  Ok (mkResult accesses (hit_count r.1) (accesses - hit_count r.1) hit_rate
        emat p).

(** A command that neither reads nor writes standard output. *)
Definition quiet {G A} (c : M G A) : Prop :=
  ∀ w, c w = ((c (mkWorld (rng w) [])).1,
              mkWorld (rng (c (mkWorld (rng w) [])).2) (stdout w)).

(** The set a VPN maps to, with [s] sets. *)
Definition set_of (s : Z) (vpn : Z) : nat := Z.to_nat (Z.land vpn (s - 1)).

(** The VPNs of a run of accesses that map to set [i], in access order. *)
Definition set_history (s : Z) (i : nat) (vpns : list Z) : list Z :=
  filter (λ vpn, set_of s vpn = i) vpns.

(** The distinct VPNs of a history, most recently used first. *)
Definition mru_order (history : list Z) : list Z :=
  foldl (λ stack vpn, stack_touch vpn stack) [] history.

(** LRU as a specification: after the accesses [past], the access [vpn]
    hits when [vpn] is among the [w] most recently used distinct VPNs of its
    set. *)
Fixpoint lru_results (s w : Z) (past vpns : list Z) : list bool :=
  match vpns with
  | [] => []
  | vpn :: vpns' =>
      bool_decide
        (vpn ∈ take (Z.to_nat w) (mru_order (set_history s (set_of s vpn) past)))
      :: lru_results s w (past ++ [vpn]) vpns'
  end.

(** LRU stacks that follow a history: one per set, each the MRU order of
    the VPNs of [past] mapping to it. *)
Definition tracks (s : Z) (past : list Z) (stacks : list (list Z)) : Prop :=
  length stacks = Z.to_nat s ∧
  ∀ i, (i < Z.to_nat s)%nat →
       stacks !! i = Some (mru_order (set_history s i past)).

(** A line [ask_int] accepts, and the value it stands for. *)
Definition accepts (py_int : string → option Z) (strip : string → string)
    (default minv maxv : option Z) (line : string) (val : Z) : Prop :=
  (if bool_decide (strip line = "") && bool_decide (default ≠ None)
   then default else py_int (strip line)) = Some val ∧
  (∀ lo, minv = Some lo → lo ≤ val) ∧
  (∀ hi, maxv = Some hi → val ≤ hi).

(** A decimal reader to run [ask_int] with: an optional sign and digits. *)
Definition dec_int (s : string) : option Z :=
  Z.of_int <$> NilZero.int_of_string s.

(** A stand-in for [str.strip] on lines whose only blanks are spaces. *)
Fixpoint lstrip_spaces (s : string) : string :=
  match s with
  | String a s' =>
      if Ascii.eqb a (Ascii.ascii_of_nat 32) then lstrip_spaces s' else s
  | EmptyString => s
  end.

Definition strip_spaces (s : string) : string :=
  String.rev (lstrip_spaces (String.rev (lstrip_spaces s))).

(** Rationals to run [ask_float] with: read from a decimal integer,
    compared exactly. *)
Definition q_float (s : string) : option Q := inject_Z <$> dec_int s.
Definition q_str (x : Q) : string :=
  pretty (Qnum x) +:+ "/" +:+ pretty (Z.pos (Qden x)).
Definition q_lt (x y : Q) : bool := negb (Qle_bool y x).
Definition q_gt (x y : Q) : bool := negb (Qle_bool x y).

(** ** Set indexing *)

Lemma pow2_land_pred k : 0 ≤ k → Z.land (2 ^ k) (2 ^ k - 1) = 0.
Proof.
  intros Hk. replace (2 ^ k - 1) with (Z.ones k) by (rewrite Z.ones_equiv; lia).
  rewrite Z.land_ones by done. apply Z_mod_same_full.
Qed.

Lemma land_pred_pow2 x : 0 < x → Z.land x (x - 1) = 0 → pow2 x.
Proof.
  intros Hx Hland. exists (Z.log2 x).
  pose proof (Z.log2_nonneg x) as Hk.
  pose proof (Z.log2_spec x Hx) as [Hlo Hhi].
  split; [done|].
  destruct (decide (x = 2 ^ Z.log2 x)) as [|Hne]; [done|exfalso].
  assert (Z.log2 (x - 1) = Z.log2 x) as Hlog
    by (apply Z.log2_unique; [done|lia]).
  assert (Z.testbit (Z.land x (x - 1)) (Z.log2 x) = true) as Hbit.
  { rewrite Z.land_spec, Z.bit_log2 by done.
    rewrite <- Hlog. rewrite Z.bit_log2 by lia. done. }
  rewrite Hland, Z.bits_0 in Hbit. done.
Qed.

Lemma index_pow2 k vpn :
  0 ≤ k → Z.land vpn (2 ^ k - 1) = vpn `mod` 2 ^ k.
Proof.
  intros Hk. replace (2 ^ k - 1) with (Z.ones k) by (rewrite Z.ones_equiv; lia).
  by apply Z.land_ones.
Qed.

Lemma index_in_range s w t vpn :
  tlb_shape s w t →
  0 ≤ _index t vpn < s ∧
  list_index (buckets t) (_index t vpn) = Ok (Z.to_nat (Z.land vpn (s - 1))) ∧
  (Z.to_nat (Z.land vpn (s - 1)) < length (buckets t))%nat.
Proof.
  intros [(Hs & Hw & k & Hk & ->) Hsets Hways Hmask Hlen].
  unfold _index, list_index. rewrite Hmask, Hlen, index_pow2 by done.
  pose proof (Z.mod_pos_bound vpn (2 ^ k) Hs) as Hb.
  split; [done|]. rewrite bool_decide_true by lia. split; [done|lia].
Qed.

(** ** Construction *)

Lemma init_ok s w :
  valid_config s w →
  __init__ s w = Ok (mkTLB s w (replicate (Z.to_nat s) []) (s - 1)).
Proof.
  intros (Hs & Hw & k & Hk & ->). unfold __init__.
  rewrite !bool_decide_true by (try apply pow2_land_pred; lia). done.
Qed.

Lemma init_raises s w :
  ¬ valid_config s w → __init__ s w = Raise AssertionError.
Proof.
  intros Hbad. unfold __init__.
  repeat case_bool_decide; simpl; try done.
  destruct Hbad. repeat split; [lia..|]. apply land_pred_pow2; [lia|done].
Qed.

Lemma init_inv s w t : __init__ s w = Ok t → valid_config s w.
Proof.
  unfold __init__. repeat case_bool_decide; simpl; try done.
  intros _. repeat split; [lia..|]. apply land_pred_pow2; [lia|done].
Qed.

(** ** Deque operations *)

Lemma deque_remove_first x d :
  x ∈ d →
  ∃ l1 l2, d = l1 ++ x :: l2 ∧ (x ∉ l1) ∧ deque_remove x d = Ok (l1 ++ l2).
Proof.
  induction d as [|y d IH]; intros Hin; [by apply elem_of_nil in Hin|].
  simpl. case_bool_decide as Hy.
  - subst y. exists [], d. split_and!; [done| |done]. apply not_elem_of_nil.
  - apply elem_of_cons in Hin as [->|Hin]; [done|].
    destruct (IH Hin) as (l1 & l2 & -> & Hl1 & ->).
    exists (y :: l1), l2. split_and!; [done| |done].
    rewrite elem_of_cons. intros [->|?]; done.
Qed.

Lemma deque_pop_last l x : deque_pop (l ++ [x]) = Ok (x, l).
Proof.
  induction l as [|y l IH]; [done|].
  change ((y :: l) ++ [x]) with (y :: (l ++ [x])).
  simpl. rewrite IH. by destruct l.
Qed.

Lemma deque_pop_nonempty d :
  d ≠ [] → ∃ l x, d = l ++ [x] ∧ deque_pop d = Ok (x, l).
Proof.
  intros Hd. destruct (decide (d = [])) as [|_]; [done|].
  induction d as [|y d _] using rev_ind; [done|].
  exists d, y. split; [done|apply deque_pop_last].
Qed.

(** ** The scan of [access] *)

Lemma access_scan_miss vpn bucket rest :
  vpn ∉ rest → access_scan vpn bucket rest = None.
Proof.
  induction rest as [|tag rest IH]; [done|].
  rewrite not_elem_of_cons. intros [Hne Hin]. simpl.
  rewrite bool_decide_false by done. by apply IH.
Qed.

Lemma access_scan_hit vpn bucket rest :
  vpn ∈ rest →
  access_scan vpn bucket rest
  = Some (b ← deque_remove vpn bucket; Ok (deque_appendleft vpn b)).
Proof.
  induction rest as [|tag rest IH]; intros Hin; [by apply elem_of_nil in Hin|].
  simpl. case_bool_decide as Htag; [by subst tag|].
  apply elem_of_cons in Hin as [->|Hin]; [done|by apply IH].
Qed.

(** ** One access, by cases *)

Section AccessCases.
Context (s w : Z) (t : SetAssociativeTLB) (vpn : Z) (bucket : list Z).
Context (Hshape : tlb_shape s w t).
Let i := Z.to_nat (Z.land vpn (s - 1)).
Context (Hbucket : buckets t !! i = Some bucket).

Lemma access_hit :
  vpn ∈ bucket →
  ∃ l1 l2, bucket = l1 ++ vpn :: l2 ∧ (vpn ∉ l1) ∧
    access t vpn
    = Ok (true, set_buckets t (<[i := vpn :: l1 ++ l2]> (buckets t))).
Proof.
  intros Hin. destruct (deque_remove_first _ _ Hin) as (l1 & l2 & Hb & Hl1 & Hrm).
  exists l1, l2. split_and!; [done..|].
  destruct (index_in_range s w t vpn Hshape) as (_ & Hidx & _).
  unfold access. rewrite Hidx. simpl. fold i. rewrite Hbucket.
  rewrite (access_scan_hit _ _ _ Hin), Hrm. done.
Qed.

Lemma access_miss_room :
  vpn ∉ bucket → Z.of_nat (length bucket) < w →
  access t vpn = Ok (false, set_buckets t (<[i := vpn :: bucket]> (buckets t))).
Proof.
  intros Hin Hlen.
  destruct (index_in_range s w t vpn Hshape) as (_ & Hidx & _).
  unfold access. rewrite Hidx. simpl. fold i. rewrite Hbucket.
  rewrite (access_scan_miss _ _ _ Hin), (shape_ways _ _ _ Hshape).
  rewrite bool_decide_false by lia. done.
Qed.

Lemma access_miss_full :
  vpn ∉ bucket → w ≤ Z.of_nat (length bucket) →
  ∃ l x, bucket = l ++ [x] ∧
    access t vpn = Ok (false, set_buckets t (<[i := vpn :: l]> (buckets t))).
Proof.
  intros Hin Hlen.
  assert (bucket ≠ []) as Hne.
  { intros ->. destruct Hshape as [(? & ? & ?) _ _ _ _]. simpl in Hlen. lia. }
  destruct (deque_pop_nonempty _ Hne) as (l & x & Hb & Hpop).
  exists l, x. split; [done|].
  destruct (index_in_range s w t vpn Hshape) as (_ & Hidx & _).
  unfold access. rewrite Hidx. simpl. fold i. rewrite Hbucket.
  rewrite (access_scan_miss _ _ _ Hin), (shape_ways _ _ _ Hshape).
  rewrite bool_decide_true by lia. rewrite Hpop. done.
Qed.

End AccessCases.

(** ** A set is a prefix of its LRU stack *)

Lemma filter_ne_id (x : Z) (l : list Z) :
  x ∉ l → filter (λ y, y ≠ x) l = l.
Proof.
  induction l as [|y l IH]; [done|].
  rewrite not_elem_of_cons. intros [Hne Hin].
  rewrite filter_cons_True by done. by rewrite IH.
Qed.

Lemma stack_touch_NoDup vpn stack : NoDup stack → NoDup (stack_touch vpn stack).
Proof.
  intros Hnd. unfold stack_touch. apply NoDup_cons. split.
  - rewrite list_elem_of_filter. by intros [? _].
  - by apply NoDup_filter.
Qed.

Lemma take_touch_hit (n : nat) vpn stack l1 l2 :
  NoDup stack → take n stack = l1 ++ vpn :: l2 → vpn ∉ l1 →
  take n (stack_touch vpn stack) = vpn :: l1 ++ l2.
Proof.
  intros Hnd Htake Hl1.
  pose proof (take_drop n stack) as Hsplit. rewrite Htake in Hsplit.
  assert (length (l1 ++ vpn :: l2) ≤ n)%nat as Hlen
    by (rewrite <- Htake, length_take; lia).
  rewrite length_app in Hlen. simpl in Hlen.
  rewrite <- Hsplit in Hnd.
  rewrite <- (assoc_L (++)) in Hnd. apply NoDup_app in Hnd as (_ & _ & Hnd).
  change ((vpn :: l2) ++ drop n stack) with (vpn :: (l2 ++ drop n stack)) in Hnd.
  apply NoDup_cons in Hnd as [Hrest _].
  unfold stack_touch. rewrite <- Hsplit, <- (assoc_L (++)), filter_app.
  change ((vpn :: l2) ++ drop n stack) with (vpn :: (l2 ++ drop n stack)).
  rewrite filter_cons_False by (by intros ?).
  rewrite !filter_ne_id by done.
  destruct n as [|n]; [lia|]. simpl. f_equal.
  rewrite (assoc_L (++)).
  destruct (decide (length stack ≤ S n)%nat) as [Hshort|Hlong].
  - rewrite (drop_ge stack) by done. rewrite (right_id_L [] (++)).
    apply take_ge. rewrite length_app. lia.
  - assert (length (l1 ++ vpn :: l2) = S n) as Hfull
      by (rewrite <- Htake, length_take; lia).
    rewrite length_app in Hfull. simpl in Hfull.
    rewrite take_app_le by (rewrite length_app; lia).
    apply take_ge. rewrite length_app. lia.
Qed.

Lemma take_touch_miss_room (n : nat) vpn stack :
  vpn ∉ take n stack → (length (take n stack) < n)%nat →
  take n (stack_touch vpn stack) = vpn :: take n stack.
Proof.
  intros Hin Hlen. rewrite length_take in Hlen.
  rewrite (take_ge stack) in * by lia.
  unfold stack_touch. rewrite filter_ne_id by done.
  destruct n as [|n]; [lia|]. simpl. f_equal. apply take_ge. lia.
Qed.

Lemma take_touch_miss_full (n : nat) vpn stack l x :
  vpn ∉ take n stack → take n stack = l ++ [x] →
  (n ≤ length (take n stack))%nat →
  take n (stack_touch vpn stack) = vpn :: l.
Proof.
  intros Hin Htake Hlen.
  assert (length l + 1 = length (take n stack))%nat as Hl
    by (by rewrite Htake, length_app).
  rewrite length_take in Hlen, Hl.
  pose proof (take_drop n stack) as Hsplit. rewrite Htake in Hsplit.
  rewrite Htake in Hin. apply not_elem_of_app in Hin as [Hin _].
  unfold stack_touch. rewrite <- Hsplit, <- (assoc_L (++)), filter_app.
  rewrite (filter_ne_id _ l) by done.
  destruct n as [|n]; [lia|]. simpl. f_equal.
  rewrite take_app_le by lia. apply take_ge. lia.
Qed.

(** ** One access on the LRU stacks *)

Lemma set_buckets_shape s w t bs :
  tlb_shape s w t → length bs = length (buckets t) →
  tlb_shape s w (set_buckets t bs).
Proof.
  intros [Hv Hs Hw Hm Hl] Hbs. split; simpl; [done..|]. by rewrite Hbs.
Qed.

Lemma access_models s w t stacks vpn :
  tlb_shape s w t → models w stacks t →
  let i := Z.to_nat (Z.land vpn (s - 1)) in
  ∃ stack,
    stacks !! i = Some stack ∧
    buckets t !! i = Some (take (Z.to_nat w) stack) ∧
    access t vpn
    = Ok (bool_decide (vpn ∈ take (Z.to_nat w) stack),
          set_buckets t
            (take (Z.to_nat w) <$> <[i := stack_touch vpn stack]> stacks)).
Proof.
  intros Hshape [Hnd Hbs] i.
  destruct (index_in_range s w t vpn Hshape) as (_ & _ & Hi). fold i in Hi.
  assert (i < length stacks)%nat as Hi' by (by rewrite Hbs, length_fmap in Hi).
  destruct (lookup_lt_is_Some_2 _ _ Hi') as [stack Hstack].
  assert (buckets t !! i = Some (take (Z.to_nat w) stack)) as Hbucket
    by (by rewrite Hbs, list_lookup_fmap, Hstack).
  pose proof (Forall_lookup_1 _ _ _ _ Hnd Hstack) as Hnds.
  assert (0 < w) as Hw by (by destruct Hshape as [(? & ? & ?) _ _ _ _]).
  exists stack. split_and!; [done..|].
  rewrite list_fmap_insert, <- Hbs.
  case_bool_decide as Hin.
  - destruct (access_hit s w t vpn _ Hshape Hbucket Hin)
      as (l1 & l2 & Htake & Hl1 & ->).
    by rewrite (take_touch_hit _ _ _ l1 l2).
  - destruct (decide (Z.of_nat (length (take (Z.to_nat w) stack)) < w))
      as [Hroom|Hfull].
    + rewrite (access_miss_room s w t vpn _ Hshape Hbucket Hin Hroom).
      rewrite take_touch_miss_room by (done || lia). done.
    + destruct (access_miss_full s w t vpn _ Hshape Hbucket Hin)
        as (l & x & Htake & ->); [lia|].
      rewrite (take_touch_miss_full _ _ _ l x) by (done || lia). done.
Qed.

Lemma access_models_step s w t stacks vpn :
  tlb_shape s w t → models w stacks t →
  ∃ hit t' stacks',
    access t vpn = Ok (hit, t') ∧ tlb_shape s w t' ∧ models w stacks' t'.
Proof.
  intros Hshape Hm.
  destruct (access_models s w t stacks vpn Hshape Hm) as (stack & Hst & _ & Hacc).
  eexists _, _, _. split; [exact Hacc|]. destruct Hm as [Hnd Hbs]. split.
  - apply set_buckets_shape; [done|].
    by rewrite length_fmap, length_insert, Hbs, length_fmap.
  - split; [|done]. apply Forall_insert; [done|].
    apply stack_touch_NoDup. by eapply Forall_lookup_1.
Qed.

Lemma init_models s w t :
  __init__ s w = Ok t →
  tlb_shape s w t ∧ models w (replicate (Z.to_nat s) []) t ∧
  buckets t = replicate (Z.to_nat s) [].
Proof.
  intros Hinit. pose proof (init_inv _ _ _ Hinit) as Hv.
  rewrite (init_ok _ _ Hv) in Hinit. injection Hinit as <-.
  split_and!; [| |done].
  - split; simpl; [done..|]. by rewrite length_replicate.
  - split; [apply Forall_replicate, NoDup_nil_2|].
    simpl. by rewrite fmap_replicate, take_nil.
Qed.

Lemma models_inv s w t stacks : tlb_shape s w t → models w stacks t → tlb_inv t.
Proof.
  intros Hshape [Hnd Hbs]. unfold tlb_inv.
  assert (0 < w) as Hw by (by destruct Hshape as [(? & ? & ?) _ _ _ _]).
  rewrite Hbs, (shape_ways _ _ _ Hshape), Forall_fmap.
  eapply Forall_impl; [exact Hnd|]. intros stack Hs. split.
  - simpl. rewrite length_take. lia.
  - eapply sublist_NoDup; [exact Hs|apply sublist_take].
Qed.

Lemma reachable_models s w t :
  reachable s w t → tlb_shape s w t ∧ ∃ stacks, models w stacks t.
Proof.
  induction 1 as [t Hinit|t vpn hit t' _ [Hshape [stacks Hm]] Hacc].
  - destruct (init_models _ _ _ Hinit) as (? & ? & _).
    split; [done|by eexists].
  - destruct (access_models_step s w t stacks vpn Hshape Hm)
      as (hit' & t'' & stacks' & Hacc' & ? & ?).
    rewrite Hacc in Hacc'. injection Hacc' as <- <-.
    split; [done|by eexists].
Qed.

Lemma reachable_inv s w t : reachable s w t → tlb_shape s w t ∧ tlb_inv t.
Proof.
  intros Hr. destruct (reachable_models _ _ _ Hr) as [Hshape [stacks Hm]].
  split; [done|by eapply models_inv].
Qed.

Lemma access_all_models s w t stacks vpns :
  tlb_shape s w t → models w stacks t →
  ∃ rs t' stacks',
    access_all t vpns = Ok (rs, t') ∧ length rs = length vpns ∧
    tlb_shape s w t' ∧ models w stacks' t'.
Proof.
  revert t stacks. induction vpns as [|vpn vpns IH]; intros t stacks Hshape Hm.
  - by exists [], t, stacks.
  - destruct (access_models_step s w t stacks vpn Hshape Hm)
      as (hit & t1 & stacks1 & Hacc & Hshape1 & Hm1).
    destruct (IH t1 stacks1 Hshape1 Hm1) as (rs & t2 & stacks2 & Hall & Hlen & ? & ?).
    exists (hit :: rs), t2, stacks2. simpl. rewrite Hacc. simpl. rewrite Hall.
    simpl. by rewrite Hlen.
Qed.

Lemma access_all_reachable s w t vpns rs t' :
  reachable s w t → access_all t vpns = Ok (rs, t') → reachable s w t'.
Proof.
  revert t rs. induction vpns as [|vpn vpns IH]; intros t rs Hr; simpl.
  - by intros [= _ <-].
  - destruct (access t vpn) as [[hit t1]|] eqn:Hacc; [|done]. simpl.
    destruct (access_all t1 vpns) as [[rs1 t2]|] eqn:Hall; [|done]. simpl.
    intros [= _ <-]. eapply IH; [|done]. by eapply reach_access.
Qed.

(** ** Commands *)

Section Commands.
Context {G : Type} `{Random G}.

Lemma bind_lift {A B} (r : res A) (k : A → M G B) w :
  (lift r ≫= k) w = match r with Ok a => k a w | Raise e => (Raise e, w) end.
Proof. by destruct r. Qed.

Lemma bind_ok {A B} (c : M G A) (k : A → M G B) w a w1 :
  c w = (Ok a, w1) → (c ≫= k) w = k a w1.
Proof. intros Hc. unfold mbind, M_bind. by rewrite Hc. Qed.

Lemma bind_raise {A B} (c : M G A) (k : A → M G B) w e w1 :
  c w = (Raise e, w1) → (c ≫= k) w = (Raise e, w1).
Proof. intros Hc. unfold mbind, M_bind. by rewrite Hc. Qed.

Lemma quiet_ret {A} (a : A) : quiet (mret a : M G A).
Proof. by intros [g o]. Qed.

Lemma quiet_lift {A} (r : res A) : quiet (lift r : M G A).
Proof. by intros [g o]. Qed.

Lemma quiet_bind {A B} (c : M G A) (k : A → M G B) :
  quiet c → (∀ a, quiet (k a)) → quiet (c ≫= k).
Proof.
  intros Hc Hk [g o]. unfold mbind, M_bind. simpl.
  rewrite (Hc (mkWorld g o)). simpl.
  destruct (c (mkWorld g [])) as [[a|e] [g' o']]; simpl; [|done].
  rewrite (Hk a (mkWorld g' o)), (Hk a (mkWorld g' o')). done.
Qed.

Lemma quiet_random : quiet random.
Proof. by intros [g o]. Qed.

Lemma quiet_randbelow n : quiet (randbelow n).
Proof. by intros [g o]. Qed.

Lemma quiet_randrange n : quiet (randrange n).
Proof.
  unfold randrange. case_bool_decide; [apply quiet_randbelow|apply quiet_lift].
Qed.

Lemma quiet_randint a b : quiet (randint a b).
Proof.
  unfold randint. case_bool_decide; [|apply quiet_lift].
  apply quiet_bind; [apply quiet_randbelow|intros; apply quiet_ret].
Qed.

Lemma quiet_trace_step vpages page_size locality_prob locality_window current :
  quiet (trace_step vpages page_size locality_prob locality_window current).
Proof.
  unfold trace_step.
  apply quiet_bind; [apply quiet_random|intros f].
  apply quiet_bind.
  - destruct (negb _).
    + apply quiet_bind; [apply quiet_randint|intros delta].
      apply quiet_bind; [apply quiet_lift|intros; apply quiet_ret].
    + apply quiet_bind; [apply quiet_randrange|intros; apply quiet_ret].
  - intros vc. apply quiet_bind; [apply quiet_randrange|intros; apply quiet_ret].
Qed.

Lemma quiet_trace_loop n vpages page_size locality_prob locality_window refs current :
  quiet (trace_loop n vpages page_size locality_prob locality_window refs current).
Proof.
  revert refs current. induction n as [|n IH]; intros refs current; simpl.
  - apply quiet_ret.
  - apply quiet_bind; [apply quiet_trace_step|intros; apply IH].
Qed.

(** [generate_trace] reseeds on entry: what it returns and the generator
    state it leaves are those of a run from the seeded state, whatever came
    before; standard output is not touched. *)
Lemma generate_trace_seeded n_accesses vpages page_size locality_prob
    locality_window seed w :
  let r := (randrange vpages ≫=
              trace_loop (Z.to_nat n_accesses) vpages page_size locality_prob
                locality_window []) (mkWorld (rnd_seed seed) []) in
  generate_trace n_accesses vpages page_size locality_prob locality_window
    seed w
  = (r.1, mkWorld (rng r.2) (stdout w)).
Proof.
  unfold generate_trace. destruct w as [g o].
  unfold mbind at 1, M_bind at 1. simpl.
  set (c := randrange vpages ≫= _).
  assert (quiet c) as Hq.
  { apply quiet_bind; [apply quiet_randrange|intros; apply quiet_trace_loop]. }
  apply (Hq (mkWorld (rnd_seed seed) o)).
Qed.

Lemma generate_trace_fresh n_accesses vpages page_size locality_prob
    locality_window seed w w' :
  (generate_trace n_accesses vpages page_size locality_prob locality_window
     seed w).1
  = (generate_trace n_accesses vpages page_size locality_prob locality_window
       seed w').1.
Proof. by rewrite !generate_trace_seeded. Qed.

End Commands.

(** ** The trace *)

Section Trace.
Context {G : Type} `{Random G}.

Lemma trace_loop_length n vpages page_size locality_prob locality_window
    refs current w trace w' :
  trace_loop n vpages page_size locality_prob locality_window refs current w
  = (Ok trace, w') →
  length trace = (length refs + n)%nat.
Proof.
  revert refs current w. induction n as [|n IH]; intros refs current w; simpl.
  - intros [= <- _]. lia.
  - unfold mbind, M_bind.
    destruct (trace_step _ _ _ _ _ w) as [[r|e] w1]; [|done].
    intros Hloop. apply IH in Hloop. rewrite length_app in Hloop. simpl in Hloop.
    lia.
Qed.

Lemma generate_trace_length n_accesses vpages page_size locality_prob
    locality_window seed w trace w' :
  generate_trace n_accesses vpages page_size locality_prob locality_window
    seed w = (Ok trace, w') →
  length trace = Z.to_nat n_accesses.
Proof.
  unfold generate_trace, mbind, M_bind. simpl.
  destruct (randrange vpages _) as [[current|e] w1]; [|done].
  intros Hloop. by apply trace_loop_length in Hloop.
Qed.

Lemma randrange_ok stop w :
  0 < stop → ∃ r w', randrange stop w = (Ok r, w').
Proof.
  intros Hs. unfold randrange. rewrite bool_decide_true by lia.
  by eexists _, _.
Qed.

Lemma delta_bounds_ordered locality_window :
  0 ≤ locality_window →
  (delta_bounds locality_window).1 ≤ 0 ≤ (delta_bounds locality_window).2.
Proof.
  intros Hw. unfold delta_bounds. simpl. split.
  - apply Z.div_le_upper_bound; lia.
  - apply Z.div_pos; lia.
Qed.

Lemma trace_step_ok vpages page_size locality_prob locality_window current w :
  0 < vpages → 0 < page_size → 0 ≤ locality_window →
  ∃ r w',
    trace_step vpages page_size locality_prob locality_window current w
    = (Ok r, w').
Proof.
  intros Hv Hp Hw. unfold trace_step, mbind, M_bind. simpl.
  pose proof (delta_bounds_ordered _ Hw) as Hd.
  unfold delta_bounds in *. simpl in Hd.
  destruct (negb _).
  - unfold randint. rewrite bool_decide_true by lia.
    unfold mbind, M_bind, lift, py_mod. simpl.
    rewrite bool_decide_false by lia. simpl.
    unfold randrange. rewrite bool_decide_true by lia. by eexists _, _.
  - unfold randrange. rewrite !bool_decide_true by lia. by eexists _, _.
Qed.

Lemma trace_loop_ok n vpages page_size locality_prob locality_window
    refs current w :
  0 < vpages → 0 < page_size → 0 ≤ locality_window →
  ∃ trace w',
    trace_loop n vpages page_size locality_prob locality_window refs current w
    = (Ok trace, w').
Proof.
  intros Hv Hp Hw. revert refs current w.
  induction n as [|n IH]; intros refs current w; simpl.
  - by eexists _, _.
  - unfold mbind, M_bind.
    destruct (trace_step_ok vpages page_size locality_prob locality_window
                current w Hv Hp Hw) as (r & w1 & ->).
    apply IH.
Qed.

Lemma generate_trace_ok n_accesses vpages page_size locality_prob
    locality_window seed w :
  0 < vpages → 0 < page_size → 0 ≤ locality_window →
  ∃ trace w',
    generate_trace n_accesses vpages page_size locality_prob locality_window
      seed w = (Ok trace, w').
Proof.
  intros Hv Hp Hw. unfold generate_trace, mbind, M_bind. simpl.
  destruct (randrange_ok vpages (mkWorld (rnd_seed seed) (stdout w)) Hv)
    as (current & w1 & ->).
  by apply trace_loop_ok.
Qed.

End Trace.

(** ** Counting hits and time *)

Lemma hit_count_cons hit rs :
  hit_count (hit :: rs) = (if hit then 1 else 0) + hit_count rs.
Proof.
  unfold hit_count. destruct hit.
  - rewrite filter_cons_True by done. simpl length. lia.
  - rewrite filter_cons_False by done. lia.
Qed.

Lemma hit_count_range rs : 0 ≤ hit_count rs ≤ Z.of_nat (length rs).
Proof.
  induction rs as [|hit rs IH]; [done|].
  rewrite hit_count_cons. simpl length. destruct hit; lia.
Qed.

Lemma time_cost_split t_tlb t_mem t_pagewalk rs :
  time_cost t_tlb t_mem t_pagewalk rs
  = hit_count rs * (t_tlb + t_mem)
    + (Z.of_nat (length rs) - hit_count rs) * (t_tlb + t_pagewalk + t_mem).
Proof.
  induction rs as [|hit rs IH]; [done|].
  rewrite hit_count_cons. simpl. rewrite IH. destruct hit; lia.
Qed.

Lemma access_all_length t vpns rs t' :
  access_all t vpns = Ok (rs, t') → length rs = length vpns.
Proof.
  revert t rs. induction vpns as [|vpn vpns IH]; intros t rs; simpl.
  - by intros [= <- _].
  - destruct (access t vpn) as [[hit t1]|]; [|done]. simpl.
    destruct (access_all t1 vpns) as [[rs1 t2]|] eqn:Hall; [|done]. simpl.
    intros [= <- <-]. simpl. by rewrite (IH _ _ Hall).
Qed.

(** ** The main loop and the run *)

Section Driver.
Context {G : Type} `{Random G}.

(** The main loop is [access_all] over the trace's VPNs with the two
    counters kept alongside; it never touches the generator, and prints
    only under [show_progress]. *)
Lemma sim_loop_spec show_progress accesses step t_tlb t_mem t_pagewalk
    trace i st (w : World G) :
  let r := sim_loop show_progress accesses step t_tlb t_mem t_pagewalk
             trace i st w in
  r.1 = (a ← access_all (l_tlb st) (trace.*1);
         Ok (mkLoop a.2 (l_hits st + hit_count a.1)
               (l_total_time st + time_cost t_tlb t_mem t_pagewalk a.1))) ∧
  rng r.2 = rng w ∧
  (show_progress = false → r.2 = w).
Proof.
  revert i st w. induction trace as [|[vpn o] trace IH]; intros i st w.
  - destruct st as [t h tt]. simpl. unfold hit_count. simpl.
    by rewrite !Z.add_0_r.
  - simpl sim_loop. rewrite bind_lift. simpl fmap. simpl access_all.
    destruct (access (l_tlb st) vpn) as [[hit t1]|e]; [|done].
    set (st' := if (hit, t1).1 then _ else _).
    set (pr := if show_progress && _ then _ else _).
    assert (∃ w1, pr w = (Ok (), w1) ∧ rng w1 = rng w ∧
                  (show_progress = false → w1 = w)) as (w1 & Hpr & Hrng & Hshow).
    { unfold pr. destruct show_progress; simpl.
      - destruct (_ || _); eexists; done.
      - eexists; done. }
    rewrite (bind_ok _ _ _ _ _ Hpr).
    destruct (IH (i + 1) st' w1) as (Hres & Hrng' & Hshow').
    split_and!.
    + rewrite Hres.
      assert (l_tlb st' = t1) as -> by (unfold st'; by destruct hit).
      assert (l_hits st' = l_hits st + (if hit then 1 else 0)) as ->
        by (unfold st'; destruct hit; simpl; lia).
      assert (l_total_time st'
              = l_total_time st
                + (if hit then t_tlb + t_mem else t_tlb + t_pagewalk + t_mem))
        as -> by (unfold st'; by destruct hit).
      simpl. destruct (access_all t1 _) as [[rs t2]|e]; simpl; [|done].
      rewrite hit_count_cons. f_equal. f_equal; lia.
    + transitivity (rng w1); [exact Hrng'|exact Hrng].
    + intros Hs. transitivity w1; [exact (Hshow' Hs)|exact (Hshow Hs)].
Qed.

Section Run.
Context (sets ways vpages page_size n_accesses : Z) (locality_prob : Q).
Context (locality_window t_tlb t_mem t_pagewalk seed : Z).

Let p : Params :=
  mkParams sets ways vpages page_size n_accesses locality_prob
    locality_window t_tlb t_mem t_pagewalk seed.
Let run (show_progress : bool) : M G Result :=
  run_tlb_sim sets ways vpages page_size n_accesses locality_prob
    locality_window t_tlb t_mem t_pagewalk seed show_progress.
Let gen : M G (list (Z * Z)) :=
  generate_trace n_accesses vpages page_size locality_prob locality_window
    seed.

(** What [run_tlb_sim] returns, free of the world: build the TLB, take the
    trace, run the accesses.  Also: the generator ends where
    [generate_trace] left it, and nothing is printed without
    [show_progress]. *)
Lemma run_tlb_sim_result show_progress (w : World G) :
  (run show_progress w).1
  = (tlb ← __init__ sets ways;
     trace ← (gen w).1;
     run_on tlb trace t_tlb t_mem t_pagewalk p) ∧
  rng (run show_progress w).2
  = match __init__ sets ways with
    | Ok _ => rng (gen w).2
    | Raise _ => rng w
    end ∧
  (show_progress = false →
   stdout (run show_progress w).2 = stdout w).
Proof.
  unfold run, run_tlb_sim. rewrite bind_lift.
  destruct (__init__ sets ways) as [tlb|e]; [|done].
  fold gen.
  pose proof (generate_trace_seeded n_accesses vpages page_size locality_prob
                locality_window seed w) as Hgen. fold gen in Hgen.
  assert (stdout (gen w).2 = stdout w) as Hout by (by rewrite Hgen).
  clear Hgen. destruct (gen w) as [[trace|e] w1] eqn:Hg; simpl in Hout.
  2: { by rewrite (bind_raise _ _ _ _ _ Hg). }
  rewrite (bind_ok _ _ _ _ _ Hg).
  destruct (sim_loop_spec show_progress (Z.of_nat (length trace))
              (Z.max 1 (Z.of_nat (length trace) `div` 50))
              t_tlb t_mem t_pagewalk trace 1 (mkLoop tlb 0 0) w1)
    as (Hres & Hrng & Hshow).
  destruct (sim_loop _ _ _ _ _ _ _ _ _ _) as [[st|e] w2] eqn:Hloop;
    simpl in Hres, Hrng, Hshow.
  2: { rewrite (bind_raise _ _ _ _ _ Hloop). unfold run_on. simpl.
       destruct (access_all tlb (trace.*1)) as [[rs t2]|e']; [done|].
       simpl in Hres |- *. injection Hres as ->. split_and!; [done..|].
       intros Hs. by rewrite (Hshow Hs). }
  rewrite (bind_ok _ _ _ _ _ Hloop).
  set (pr := if show_progress then _ else _).
  assert (∃ w3, pr w2 = (Ok (), w3) ∧ rng w3 = rng w2 ∧
                (show_progress = false → w3 = w2)) as (w3 & Hpr & Hrng3 & Hshow3).
  { unfold pr. destruct show_progress; eexists; done. }
  rewrite (bind_ok _ _ _ _ _ Hpr), !bind_lift.
  unfold run_on. simpl.
  destruct (access_all tlb (trace.*1)) as [[rs t2]|e]; [|done].
  simpl in Hres. injection Hres as ->. simpl. rewrite !Z.add_0_l.
  assert (rng w3 = rng w1) as Hr3 by congruence.
  assert (show_progress = false → stdout w3 = stdout w) as Hs3
    by (intros Hs; by rewrite (Hshow3 Hs), (Hshow Hs)).
  destruct (py_truediv (hit_count rs) _) as [hr|e]; simpl; [|done].
  rewrite !bind_lift.
  destruct (py_truediv (time_cost _ _ _ rs) _) as [em|e]; simpl; done.
Qed.

End Run.
End Driver.

(** ** Rates *)

Lemma Qle_div_l a t n :
  0 < n → (inject_Z a <= inject_Z t / inject_Z n)%Q ↔ a * n ≤ t.
Proof.
  intros Hn. destruct n as [|d|d]; [lia| |lia].
  unfold Qle, Qdiv, Qmult, Qinv, inject_Z. simpl. lia.
Qed.

Lemma Qle_div_r a t n :
  0 < n → (inject_Z t / inject_Z n <= inject_Z a)%Q ↔ t ≤ a * n.
Proof.
  intros Hn. destruct n as [|d|d]; [lia| |lia].
  unfold Qle, Qdiv, Qmult, Qinv, inject_Z. simpl. lia.
Qed.

Lemma Qdiv_le_mono a b n :
  0 < n → a ≤ b → (inject_Z a / inject_Z n <= inject_Z b / inject_Z n)%Q.
Proof.
  intros Hn Hab. destruct n as [|d|d]; [lia| |lia].
  unfold Qle, Qdiv, Qmult, Qinv, inject_Z. simpl. nia.
Qed.

Lemma py_truediv_ok a b : b ≠ 0 → py_truediv a b = Ok (inject_Z a / inject_Z b)%Q.
Proof. intros Hb. unfold py_truediv. by rewrite bool_decide_false. Qed.

Lemma py_truediv_inv a b q :
  py_truediv a b = Ok q → b ≠ 0 ∧ q = (inject_Z a / inject_Z b)%Q.
Proof. unfold py_truediv. case_bool_decide; [done|]. by intros [= <-]. Qed.

(** ** More ways, no fewer hits *)

Lemma elem_of_take_mono (x : Z) (n m : nat) (l : list Z) :
  (n ≤ m)%nat → x ∈ take n l → x ∈ take m l.
Proof.
  intros Hnm. rewrite !elem_of_take. intros (i & Hi & Hlt).
  exists i. split; [done|lia].
Qed.

Lemma access_all_mono s w1 w2 t1 t2 stacks vpns :
  w1 ≤ w2 →
  tlb_shape s w1 t1 → tlb_shape s w2 t2 →
  models w1 stacks t1 → models w2 stacks t2 →
  ∃ rs1 t1' rs2 t2',
    access_all t1 vpns = Ok (rs1, t1') ∧
    access_all t2 vpns = Ok (rs2, t2') ∧
    length rs1 = length vpns ∧ length rs2 = length vpns ∧
    hit_count rs1 ≤ hit_count rs2.
Proof.
  intros Hw. revert t1 t2 stacks.
  induction vpns as [|vpn vpns IH]; intros t1 t2 stacks Hs1 Hs2 Hm1 Hm2.
  - by exists [], t1, [], t2.
  - destruct (access_models s w1 t1 stacks vpn Hs1 Hm1) as (st & Hst & _ & Ha1).
    destruct (access_models s w2 t2 stacks vpn Hs2 Hm2) as (st' & Hst' & _ & Ha2).
    rewrite Hst in Hst'. injection Hst' as <-.
    set (i := Z.to_nat (Z.land vpn (s - 1))) in *.
    set (stacks' := <[i := stack_touch vpn st]> stacks) in *.
    assert (Forall NoDup stacks') as Hnd.
    { apply Forall_insert; [by destruct Hm1|].
      apply stack_touch_NoDup. eapply Forall_lookup_1; [by destruct Hm1|done]. }
    assert (length stacks' = length stacks) as Hlen by apply length_insert.
    destruct (IH (set_buckets t1 (take (Z.to_nat w1) <$> stacks'))
                 (set_buckets t2 (take (Z.to_nat w2) <$> stacks')) stacks')
      as (rs1 & t1' & rs2 & t2' & Hall1 & Hall2 & Hl1 & Hl2 & Hle).
    + apply set_buckets_shape; [done|].
      destruct Hm1 as [_ ->]. by rewrite !length_fmap.
    + apply set_buckets_shape; [done|].
      destruct Hm2 as [_ ->]. by rewrite !length_fmap.
    + done.
    + done.
    + eexists (_ :: rs1), t1', (_ :: rs2), t2'. simpl.
      rewrite Ha1, Ha2. simpl. rewrite Hall1, Hall2. simpl.
      split_and!; [done|done|by rewrite Hl1|by rewrite Hl2|].
      rewrite !hit_count_cons.
      assert (0 < w1) by (by destruct Hs1 as [(? & ? & ?) _ _ _ _]).
      destruct (decide (vpn ∈ take (Z.to_nat w1) st)) as [Hin|Hnin].
      * rewrite (bool_decide_true _ Hin).
        rewrite (bool_decide_true (vpn ∈ take (Z.to_nat w2) st))
          by (eapply elem_of_take_mono; [|done]; lia).
        lia.
      * rewrite (bool_decide_false _ Hnin). case_bool_decide; lia.
Qed.

(** ** Results of a run *)

Lemma run_on_inv tlb trace t_tlb t_mem t_pagewalk p r :
  run_on tlb trace t_tlb t_mem t_pagewalk p = Ok r →
  ∃ rs tlb',
    access_all tlb (trace.*1) = Ok (rs, tlb') ∧
    length rs = length trace ∧
    0 < Z.of_nat (length trace) ∧
    r = mkResult (Z.of_nat (length trace)) (hit_count rs)
          (Z.of_nat (length trace) - hit_count rs)
          (inject_Z (hit_count rs) / inject_Z (Z.of_nat (length trace)))
          (inject_Z (time_cost t_tlb t_mem t_pagewalk rs)
           / inject_Z (Z.of_nat (length trace)))
          p.
Proof.
  unfold run_on.
  destruct (access_all tlb (trace.*1)) as [[rs tlb']|e] eqn:Hall; [|done].
  simpl.
  destruct (py_truediv (hit_count rs) _) as [hr|e] eqn:Hhr; [|done].
  destruct (py_truediv (time_cost _ _ _ rs) _) as [em|e] eqn:Hem; [|done].
  simpl. intros [= <-].
  apply py_truediv_inv in Hhr as [Hn ->]. apply py_truediv_inv in Hem as [_ ->].
  exists rs, tlb'. split_and!; [done| |lia|done].
  by rewrite (access_all_length _ _ _ _ Hall), length_fmap.
Qed.

Lemma run_on_ok tlb trace t_tlb t_mem t_pagewalk p rs tlb' :
  access_all tlb (trace.*1) = Ok (rs, tlb') →
  trace ≠ [] →
  ∃ r, run_on tlb trace t_tlb t_mem t_pagewalk p = Ok r.
Proof.
  intros Hall Hne. unfold run_on. rewrite Hall. simpl.
  rewrite !py_truediv_ok by (by destruct trace). by eexists.
Qed.

Section RunFacts.
Context {G : Type} `{Random G}.
Context (sets ways vpages page_size n_accesses : Z) (locality_prob : Q).
Context (locality_window t_tlb t_mem t_pagewalk seed : Z).

Lemma run_tlb_sim_inv show_progress (w w' : World G) r :
  run_tlb_sim sets ways vpages page_size n_accesses locality_prob
    locality_window t_tlb t_mem t_pagewalk seed show_progress w = (Ok r, w') →
  ∃ tlb trace,
    __init__ sets ways = Ok tlb ∧
    (generate_trace n_accesses vpages page_size locality_prob locality_window
       seed w).1 = Ok trace ∧
    Z.of_nat (length trace) = n_accesses ∧
    run_on tlb trace t_tlb t_mem t_pagewalk
      (mkParams sets ways vpages page_size n_accesses locality_prob
         locality_window t_tlb t_mem t_pagewalk seed) = Ok r.
Proof.
  intros Hrun.
  destruct (run_tlb_sim_result sets ways vpages page_size n_accesses
              locality_prob locality_window t_tlb t_mem t_pagewalk seed
              show_progress w) as (Hres & _ & _).
  rewrite Hrun in Hres. simpl in Hres.
  destruct (__init__ sets ways) as [tlb|e]; [|done]. simpl in Hres.
  destruct (generate_trace _ _ _ _ _ _ w) as [[trace|e] w1] eqn:Hgen; [|done].
  simpl in Hres. exists tlb, trace. split_and!; [done..| |done].
  symmetry in Hres. destruct (run_on_inv _ _ _ _ _ _ _ Hres) as (_ & _ & _ & _ & Hpos & _).
  apply generate_trace_length in Hgen. lia.
Qed.

Lemma run_tlb_sim_ok show_progress (w : World G) :
  valid_config sets ways → 0 < vpages → 0 < page_size → 0 < n_accesses →
  0 ≤ locality_window →
  ∃ r w',
    run_tlb_sim sets ways vpages page_size n_accesses locality_prob
      locality_window t_tlb t_mem t_pagewalk seed show_progress w = (Ok r, w').
Proof.
  intros Hv Hvp Hps Hn Hlw.
  destruct (run_tlb_sim_result sets ways vpages page_size n_accesses
              locality_prob locality_window t_tlb t_mem t_pagewalk seed
              show_progress w) as (Hres & _ & _).
  destruct (init_models _ _ _ (init_ok _ _ Hv)) as (Hshape & Hm & _).
  rewrite (init_ok _ _ Hv) in Hres. simpl in Hres.
  destruct (generate_trace_ok n_accesses vpages page_size locality_prob
              locality_window seed w Hvp Hps Hlw) as (trace & w1 & Hgen).
  rewrite Hgen in Hres. simpl in Hres.
  destruct (access_all_models _ _ _ _ (trace.*1) Hshape Hm)
    as (rs & t' & _ & Hall & _ & _ & _).
  apply generate_trace_length in Hgen.
  destruct (run_on_ok _ trace t_tlb t_mem t_pagewalk
              (mkParams sets ways vpages page_size n_accesses locality_prob
                 locality_window t_tlb t_mem t_pagewalk seed) _ _ Hall) as [r Hr].
  { intros ->. simpl in Hgen. lia. }
  rewrite Hr in Hres.
  destruct (run_tlb_sim _ _ _ _ _ _ _ _ _ _ _ _ w) as [r' w'].
  simpl in Hres. subst r'. by eexists _, _.
Qed.

End RunFacts.

(** ** The locality branch of the trace generator *)

Lemma delta_bounds_even locality_window :
  locality_window `mod` 2 = 0 →
  delta_bounds locality_window
  = (- (locality_window `div` 2), locality_window `div` 2).
Proof.
  intros Hev. unfold delta_bounds. f_equal.
  Z.to_euclidean_division_equations. lia.
Qed.

Lemma delta_bounds_odd locality_window :
  locality_window `mod` 2 = 1 →
  delta_bounds locality_window
  = (- (locality_window `div` 2) - 1, locality_window `div` 2).
Proof.
  intros Hodd. unfold delta_bounds. f_equal.
  Z.to_euclidean_division_equations. lia.
Qed.

Section Locality.
Context {G : Type} `{RandomLaws G}.

(** In the locality branch the emitted VPN is the center moved by a delta
    within [delta_bounds], and the center stays. *)
Lemma trace_step_local vpages page_size locality_prob locality_window
    current (w w' : World G) r :
  ((rnd_random (rng w)).1 < locality_prob)%Q →
  trace_step vpages page_size locality_prob locality_window current w
  = (Ok r, w') →
  r.2 = current ∧
  ∃ delta,
    (delta_bounds locality_window).1 ≤ delta ≤ (delta_bounds locality_window).2 ∧
    r.1.1 = (current + delta) `mod` vpages.
Proof.
  intros Hlt. unfold trace_step.
  rewrite (bind_ok random _ w (rnd_random (rng w)).1
             (mkWorld (rnd_random (rng w)).2 (stdout w))) by done.
  assert (Qle_bool locality_prob (rnd_random (rng w)).1 = false) as ->.
  { apply not_true_is_false. rewrite Qle_bool_iff. by apply Qlt_not_le. }
  simpl negb. cbv iota.
  set (lo := (delta_bounds locality_window).1).
  set (hi := (delta_bounds locality_window).2).
  set (w1 := mkWorld _ _).
  unfold randint. case_bool_decide as Hwidth.
  2: { unfold mbind, M_bind, lift. simpl. done. }
  pose proof (rnd_below_range (hi + 1 - lo) (rng w1) ltac:(lia)) as Hr.
  unfold mbind, M_bind, randbelow, lift, py_mod. simpl.
  case_bool_decide; simpl; [done|].
  destruct (randrange page_size _) as [[offset|e] w2]; simpl; [|done].
  intros [= <- _]. simpl. split; [done|].
  exists (lo + (rnd_below (hi + 1 - lo) (rnd_random (rng w)).2).1).
  split; [|done]. simpl in Hr. lia.
Qed.

End Locality.

#[global] Instance script_random_laws : RandomLaws Script.
Proof.
  split.
  - intros g. simpl. unfold script_next.
    destruct (raw g) as [|x xs]; simpl; [done|].
    pose proof (Z.mod_pos_bound x (2 ^ 53) ltac:(done)) as Hb.
    unfold Qle, Qlt. simpl. lia.
  - intros n g Hn. simpl. by apply Z.mod_pos_bound.
Qed.

(** * The properties of the specification *)

(** ** The TLB *)

(** The part of a set update that is the same in every case: the other
    sets, the number of sets and the parameters stay. *)
Local Ltac access_frame :=
  split; [by intros; apply list_lookup_insert_ne|];
  split; [by rewrite length_insert|];
  split; [done|]; split; [done|]; split; [done|].

(** C1. In any state of a TLB built with valid parameters, [access vpn]
    returns (it does not raise), and returns true exactly when [vpn] is in
    the set of index [vpn & (sets - 1)] before the call.  On a hit the entry
    leaves its position and goes to the front of that set; on a miss with
    the set holding [ways] entries the back entry is dropped and [vpn] goes
    to the front; on a miss with room [vpn] goes to the front.  No other
    set, and neither [sets], [ways] nor [mask], changes.  The statement
    holds for every integer [vpn], the non-negative ones among them. *)
Theorem access_hit_or_miss s w t vpn :
  reachable s w t →
  let i := Z.to_nat (Z.land vpn (s - 1)) in
  ∃ hit t' bucket,
    access t vpn = Ok (hit, t') ∧
    buckets t !! i = Some bucket ∧
    (hit = true ↔ vpn ∈ bucket) ∧
    (∀ j, j ≠ i → buckets t' !! j = buckets t !! j) ∧
    length (buckets t') = length (buckets t) ∧
    sets t' = sets t ∧ ways t' = ways t ∧ mask t' = mask t ∧
    (hit = true →
     ∃ l1 l2, bucket = l1 ++ vpn :: l2 ∧ (vpn ∉ l1) ∧
       buckets t' !! i = Some (vpn :: l1 ++ l2)) ∧
    (hit = false → Z.of_nat (length bucket) = w →
     ∃ l lru, bucket = l ++ [lru] ∧ buckets t' !! i = Some (vpn :: l)) ∧
    (hit = false → Z.of_nat (length bucket) < w →
     buckets t' !! i = Some (vpn :: bucket)).
Proof.
  intros Hr i. destruct (reachable_inv _ _ _ Hr) as [Hshape Hinv].
  destruct (index_in_range s w t vpn Hshape) as (_ & _ & Hi). fold i in Hi.
  destruct (lookup_lt_is_Some_2 _ _ Hi) as [bucket Hb].
  pose proof (Forall_lookup_1 _ _ _ _ Hinv Hb) as [Hlen _].
  rewrite (shape_ways _ _ _ Hshape) in Hlen.
  assert (∀ b, <[i := b]> (buckets t) !! i = Some b) as Hsame
    by (intros; by apply list_lookup_insert_eq).
  destruct (decide (vpn ∈ bucket)) as [Hin|Hnin].
  - destruct (access_hit s w t vpn bucket Hshape Hb Hin)
      as (l1 & l2 & Hsplit & Hl1 & Hacc). fold i in Hacc.
    eexists true, _, bucket. split; [exact Hacc|]. simpl.
    split; [done|]. split; [done|]. access_frame.
    split; [|done]. intros _. exists l1, l2. by rewrite Hsame.
  - assert (false = true ↔ vpn ∈ bucket) as Hiff by (by split).
    destruct (decide (Z.of_nat (length bucket) < w)) as [Hroom|Hfull].
    + pose proof (access_miss_room s w t vpn bucket Hshape Hb Hnin Hroom) as Hacc.
      fold i in Hacc.
      eexists false, _, bucket. split; [exact Hacc|]. simpl.
      split; [done|]. split; [done|]. access_frame.
      split; [done|]. split; [lia|]. intros _ _. by rewrite Hsame.
    + destruct (access_miss_full s w t vpn bucket Hshape Hb Hnin)
        as (l & lru & Hsplit & Hacc); [lia|]. fold i in Hacc.
      eexists false, _, bucket. split; [exact Hacc|]. simpl.
      split; [done|]. split; [done|]. access_frame.
      split; [done|]. split; [|lia]. intros _ _. exists l, lru. by rewrite Hsame.
Qed.

Lemma access_hit_or_miss_witness :
  let t := mkTLB 2 2 [[6; 4]; [7]] 1 in
  ∃ hit t' bucket,
    access t 4 = Ok (hit, t') ∧
    buckets t !! 0%nat = Some bucket ∧
    (hit = true ↔ 4 ∈ bucket) ∧
    (∀ j, j ≠ 0%nat → buckets t' !! j = buckets t !! j) ∧
    length (buckets t') = length (buckets t) ∧
    sets t' = sets t ∧ ways t' = ways t ∧ mask t' = mask t ∧
    (hit = true →
     ∃ l1 l2, bucket = l1 ++ 4 :: l2 ∧ (4 ∉ l1) ∧
       buckets t' !! 0%nat = Some (4 :: l1 ++ l2)) ∧
    (hit = false → Z.of_nat (length bucket) = 2 →
     ∃ l lru, bucket = l ++ [lru] ∧ buckets t' !! 0%nat = Some (4 :: l)) ∧
    (hit = false → Z.of_nat (length bucket) < 2 →
     buckets t' !! 0%nat = Some (4 :: bucket)).
Proof.
  apply (access_hit_or_miss 2 2 (mkTLB 2 2 [[6; 4]; [7]] 1) 4).
  apply (access_all_reachable 2 2 (mkTLB 2 2 [[]; []] 1) [4; 7; 6]
           [false; false; false]).
  - apply reach_init. reflexivity.
  - reflexivity.
Defined.

(** C3. A TLB with [sets = 1] (mask 0) and [ways = 1], accessed with VPNs
    5, 7, 5 from empty, misses three times: 7 evicts 5 before 5 comes
    back. *)
Theorem scenario_5_7_5 :
  ∃ t0 t,
    __init__ 1 1 = Ok t0 ∧ mask t0 = 0 ∧
    access_all t0 [5; 7; 5] = Ok ([false; false; false], t) ∧
    buckets t = [[5]].
Proof. by eexists _, _. Qed.

(** C4. [__init__] raises when [sets] or [ways] is not positive or [sets]
    is not a power of two, and nothing is built; with [sets > 0] a power of
    two and [ways > 0] it returns the object with exactly these [sets] and
    [ways], mask [sets - 1] and [sets] empty sets. *)
Theorem init_config_error sets ways :
  (sets ≤ 0 ∨ ways ≤ 0 ∨ ¬ pow2 sets →
   __init__ sets ways = Raise AssertionError) ∧
  (0 < sets → 0 < ways → pow2 sets →
   __init__ sets ways
   = Ok (mkTLB sets ways (replicate (Z.to_nat sets) []) (sets - 1))).
Proof.
  split.
  - intros Hbad. apply init_raises. intros (Hs & Hw & Hp).
    destruct Hbad as [?|[?|?]]; [lia|lia|done].
  - intros Hs Hw Hp. by apply init_ok.
Qed.

Lemma init_config_error_witness :
  __init__ 0 4 = Raise AssertionError ∧
  __init__ 4 0 = Raise AssertionError ∧
  __init__ 8 2 = Ok (mkTLB 8 2 (replicate 8 []) 7).
Proof.
  split_and!.
  - apply (proj1 (init_config_error 0 4)). left. lia.
  - apply (proj1 (init_config_error 4 0)). right. left. lia.
  - apply (proj2 (init_config_error 8 2)); [lia|lia|].
    exists 3. split; [lia|reflexivity].
Defined.

(** C5. Every set of a validly built TLB holds between 0 and [ways]
    entries and no VPN twice: all sets are empty after construction, the
    property holds in every state the TLB goes through, every [access]
    call from such a state returns and leaves a state with the property,
    and so does every sequence of calls. *)
Theorem set_count_invariant s w t0 :
  __init__ s w = Ok t0 →
  Forall (λ b, b = []) (buckets t0) ∧
  Forall (set_ok w) (buckets t0) ∧
  (∀ t, reachable s w t → Forall (set_ok w) (buckets t)) ∧
  (∀ t vpn, reachable s w t →
     ∃ hit t', access t vpn = Ok (hit, t') ∧ Forall (set_ok w) (buckets t')) ∧
  (∀ vpns, ∃ rs t,
     access_all t0 vpns = Ok (rs, t) ∧ Forall (set_ok w) (buckets t)).
Proof.
  intros Hinit.
  assert (∀ t, reachable s w t → Forall (set_ok w) (buckets t)) as Hreach.
  { intros t Hr. destruct (reachable_inv _ _ _ Hr) as [Hshape Hinv].
    unfold tlb_inv in Hinv. by rewrite (shape_ways _ _ _ Hshape) in Hinv. }
  destruct (init_models _ _ _ Hinit) as (Hshape & Hm & Hempty).
  split_and!.
  - rewrite Hempty. by apply Forall_replicate.
  - apply Hreach. by apply reach_init.
  - done.
  - intros t vpn Hr.
    destruct (reachable_models _ _ _ Hr) as [Hs [stacks Hst]].
    destruct (access_models_step s w t stacks vpn Hs Hst)
      as (hit & t' & _ & Hacc & _ & _).
    exists hit, t'. split; [done|]. apply Hreach. by eapply reach_access.
  - intros vpns.
    destruct (access_all_models s w t0 _ vpns Hshape Hm)
      as (rs & t & _ & Hall & _ & _ & _).
    exists rs, t. split; [done|]. apply Hreach.
    eapply access_all_reachable; [|done]. by apply reach_init.
Qed.

Lemma set_count_invariant_witness :
  let t0 := mkTLB 2 2 [[]; []] 1 in
  Forall (λ b, b = []) (buckets t0) ∧
  Forall (set_ok 2) (buckets t0) ∧
  (∀ t, reachable 2 2 t → Forall (set_ok 2) (buckets t)) ∧
  (∀ t vpn, reachable 2 2 t →
     ∃ hit t', access t vpn = Ok (hit, t') ∧ Forall (set_ok 2) (buckets t')) ∧
  (∀ vpns, ∃ rs t,
     access_all t0 vpns = Ok (rs, t) ∧ Forall (set_ok 2) (buckets t)).
Proof. apply (set_count_invariant 2 2 (mkTLB 2 2 [[]; []] 1)). reflexivity. Defined.

(** ** The trace generator *)

(** C2. With [locality_window = 1] the bounds handed to [randint] are
    [-1] and [0], not [0] and [0]: [-locality_window // 2] is
    [(-1) // 2 = -1].  A locality-branch step with center 10 then emits VPN
    9 (the center stays 10); and a trace generated with [locality_prob = 1],
    whose accesses all take the locality branch around the initial center
    3, holds VPN 2 next to VPN 3. *)
Theorem locality_window_1_drifts :
  delta_bounds 1 = (-1, 0) ∧
  (trace_step 64 256 1 1 10 (mkWorld (mkScript [5; 4; 7]) [])).1
  = Ok ((9, 7), 10) ∧
  (randrange 64 (mkWorld (rnd_seed 3) [])).1 = Ok 3 ∧
  (generate_trace 6 64 256 1 1 3 world0).1
  = Ok [(3, 12); (3, 6); (3, 0); (3, 5); (2, 247); (3, 255)].
Proof. split_and!; reflexivity. Qed.

(** ** The driver *)

Section Claims.
Context {G : Type} `{Random G}.
Context (sets vpages page_size n_accesses : Z) (locality_prob : Q).
Context (locality_window t_tlb t_mem t_pagewalk seed : Z).

(** The quotient [total_time / accesses] of a returned result, before it
    is rounded, lies between [t_tlb + t_mem] and [t_tlb + t_pagewalk +
    t_mem], both ends included: between the smaller and the larger of the
    two in general, and with [t_tlb + t_mem] as the lower end when
    [t_pagewalk] is not negative.  A returned result has at least one
    access. *)
Lemma exact_emat_bounds ways show_progress (w w' : World G) r :
  run_tlb_sim sets ways vpages page_size n_accesses locality_prob
    locality_window t_tlb t_mem t_pagewalk seed show_progress w = (Ok r, w') →
  let all_hits := t_tlb + t_mem in
  let all_misses := t_tlb + t_pagewalk + t_mem in
  1 ≤ accesses r ∧
  (inject_Z (Z.min all_hits all_misses) <= EMAT r)%Q ∧
  (EMAT r <= inject_Z (Z.max all_hits all_misses))%Q ∧
  (0 ≤ t_pagewalk →
   (inject_Z all_hits <= EMAT r)%Q ∧ (EMAT r <= inject_Z all_misses)%Q).
Proof.
  intros Hrun a b.
  destruct (run_tlb_sim_inv _ _ _ _ _ _ _ _ _ _ _ _ _ _ _ Hrun)
    as (tlb & trace & _ & _ & _ & Hon).
  destruct (run_on_inv _ _ _ _ _ _ _ Hon) as (rs & tlb' & _ & Hlen & Hpos & ->).
  simpl. rewrite time_cost_split, Hlen.
  pose proof (hit_count_range rs) as Hh. rewrite Hlen in Hh.
  set (n := Z.of_nat (length trace)) in *. set (h := hit_count rs) in *.
  fold a b.
  assert (h * a + (n - h) * b = n * a + (n - h) * t_pagewalk) as ->
    by (unfold a, b; lia).
  rewrite !Qle_div_l, !Qle_div_r by done.
  assert (b = a + t_pagewalk) as -> by (unfold a, b; lia).
  split; [lia|]. clearbody a.
  destruct (decide (0 ≤ t_pagewalk)) as [Hpw|Hpw].
  - assert (0 ≤ (n - h) * t_pagewalk) by (apply Z.mul_nonneg_nonneg; lia).
    assert (0 ≤ h * t_pagewalk) by (apply Z.mul_nonneg_nonneg; lia).
    rewrite Z.min_l, Z.max_r by lia. lia.
  - assert ((n - h) * t_pagewalk ≤ 0) by (apply Z.mul_nonneg_nonpos; lia).
    assert (h * t_pagewalk ≤ 0) by (apply Z.mul_nonneg_nonpos; lia).
    rewrite Z.min_r, Z.max_l by lia. lia.
Qed.

(** C7. With the seed and all other parameters fixed, [generate_trace]
    returns the same sequence and [run_tlb_sim] the same result (or raises
    the same exception) whatever state the process is in at the call:
    the generator state left by earlier draws and the text printed so
    far. *)
Theorem determinism ways show_progress (w w' : World G) :
  (generate_trace n_accesses vpages page_size locality_prob locality_window
     seed w).1
  = (generate_trace n_accesses vpages page_size locality_prob locality_window
       seed w').1 ∧
  (run_tlb_sim sets ways vpages page_size n_accesses locality_prob
     locality_window t_tlb t_mem t_pagewalk seed show_progress w).1
  = (run_tlb_sim sets ways vpages page_size n_accesses locality_prob
       locality_window t_tlb t_mem t_pagewalk seed show_progress w').1.
Proof.
  split; [apply generate_trace_fresh|].
  destruct (run_tlb_sim_result sets ways vpages page_size n_accesses
              locality_prob locality_window t_tlb t_mem t_pagewalk seed
              show_progress w) as (-> & _ & _).
  destruct (run_tlb_sim_result sets ways vpages page_size n_accesses
              locality_prob locality_window t_tlb t_mem t_pagewalk seed
              show_progress w') as (-> & _ & _).
  by rewrite (generate_trace_fresh _ _ _ _ _ _ w w').
Qed.

(** C8. [run_tlb_sim] with [show_progress] on returns what it returns
    with [show_progress] off (the same record, or the same exception) and
    leaves the generator in the same state; with [show_progress] off it
    prints nothing. *)
Theorem progress_is_display_only ways (w : World G) :
  let run := run_tlb_sim sets ways vpages page_size n_accesses locality_prob
               locality_window t_tlb t_mem t_pagewalk seed in
  (run true w).1 = (run false w).1 ∧
  rng (run true w).2 = rng (run false w).2 ∧
  stdout (run false w).2 = stdout w.
Proof.
  intros run. unfold run.
  destruct (run_tlb_sim_result sets ways vpages page_size n_accesses
              locality_prob locality_window t_tlb t_mem t_pagewalk seed
              true w) as (-> & -> & _).
  destruct (run_tlb_sim_result sets ways vpages page_size n_accesses
              locality_prob locality_window t_tlb t_mem t_pagewalk seed
              false w) as (-> & -> & Hout).
  split_and!; [done|done|by apply Hout].
Qed.

(** C9. Of two runs that differ only in [ways], if the one with the
    smaller [ways] returns a result then so does the other, and its hits
    and hit rate are not lower. *)
Theorem more_ways_no_lower_hit_rate ways1 ways2 show1 show2
    (w1 w1' w2 : World G) r1 :
  ways1 ≤ ways2 →
  run_tlb_sim sets ways1 vpages page_size n_accesses locality_prob
    locality_window t_tlb t_mem t_pagewalk seed show1 w1 = (Ok r1, w1') →
  ∃ r2 w2',
    run_tlb_sim sets ways2 vpages page_size n_accesses locality_prob
      locality_window t_tlb t_mem t_pagewalk seed show2 w2 = (Ok r2, w2') ∧
    accesses r2 = accesses r1 ∧
    hits r1 ≤ hits r2 ∧
    (hit_rate r1 <= hit_rate r2)%Q.
Proof.
  intros Hways Hrun.
  destruct (run_tlb_sim_inv _ _ _ _ _ _ _ _ _ _ _ _ _ _ _ Hrun)
    as (tlb1 & trace & Hinit1 & Hgen & _ & Hon).
  destruct (run_on_inv _ _ _ _ _ _ _ Hon) as (rs1 & tlb1' & Hall1 & _ & Hpos & ->).
  pose proof (init_inv _ _ _ Hinit1) as (Hs & Hw1 & Hp).
  assert (valid_config sets ways2) as Hv2 by (split_and!; [done|lia|done]).
  destruct (init_models _ _ _ Hinit1) as (Hshape1 & Hm1 & _).
  destruct (init_models _ _ _ (init_ok _ _ Hv2)) as (Hshape2 & Hm2 & _).
  destruct (access_all_mono sets ways1 ways2 _ _ _ (trace.*1) Hways
              Hshape1 Hshape2 Hm1 Hm2)
    as (rs1' & t1' & rs2 & t2' & Hall1' & Hall2 & _ & _ & Hle).
  rewrite Hall1 in Hall1'. injection Hall1' as <- <-.
  destruct (run_tlb_sim_result sets ways2 vpages page_size n_accesses
              locality_prob locality_window t_tlb t_mem t_pagewalk seed
              show2 w2) as (Hres & _ & _).
  rewrite (init_ok _ _ Hv2) in Hres. simpl in Hres.
  rewrite (generate_trace_fresh _ _ _ _ _ _ w2 w1), Hgen in Hres. simpl in Hres.
  unfold run_on in Hres. rewrite Hall2 in Hres. simpl in Hres.
  rewrite !py_truediv_ok in Hres by lia. simpl in Hres.
  destruct (run_tlb_sim _ ways2 _ _ _ _ _ _ _ _ _ _ w2) as [r2 w2'].
  simpl in Hres. subst r2. eexists _, w2'. split; [done|]. simpl.
  split_and!; [done|done|]. by apply Qdiv_le_mono.
Qed.


End Claims.

(** ** The driver on a small run *)

Lemma more_ways_no_lower_hit_rate_witness :
  1 ≤ 2 ∧
  demo_run 1 false = (Ok demo_result_1, (demo_run 1 false).2) ∧
  ∃ r2 w2',
    demo_run 2 true = (Ok r2, w2') ∧
    accesses r2 = accesses demo_result_1 ∧
    hits demo_result_1 ≤ hits r2 ∧
    (hit_rate demo_result_1 <= hit_rate r2)%Q.
Proof.
  split; [lia|]. split; [vm_compute; reflexivity|].
  apply (more_ways_no_lower_hit_rate 2 64 256 12 (85 # 100) 4 1 100 300 3
           1 2 false true world0 (demo_run 1 false).2 world0 demo_result_1).
  - lia.
  - vm_compute. reflexivity.
Defined.


(** * Further properties of the code *)

(** ** MRU order and set histories *)

Lemma mru_order_snoc history vpn :
  mru_order (history ++ [vpn]) = stack_touch vpn (mru_order history).
Proof. unfold mru_order. by rewrite foldl_snoc. Qed.

Lemma elem_of_stack_touch x vpn stack :
  x ∈ stack_touch vpn stack ↔ x = vpn ∨ x ∈ stack.
Proof.
  unfold stack_touch. rewrite elem_of_cons, list_elem_of_filter.
  destruct (decide (x = vpn)) as [->|Hne].
  - split; intros _; by left.
  - split.
    + intros [?|[_ ?]]; [done|by right].
    + intros [?|?]; [done|by right].
Qed.

Lemma stack_touch_idem vpn stack :
  stack_touch vpn (stack_touch vpn stack) = stack_touch vpn stack.
Proof.
  unfold stack_touch at 1 3. f_equal. unfold stack_touch.
  rewrite filter_cons_False by (by intros ?).
  apply filter_ne_id. rewrite list_elem_of_filter. by intros [? _].
Qed.

Lemma mru_order_NoDup history : NoDup (mru_order history).
Proof.
  induction history as [|vpn history IH] using rev_ind; [apply NoDup_nil_2|].
  rewrite mru_order_snoc. by apply stack_touch_NoDup.
Qed.

Lemma elem_of_mru_order x history : x ∈ mru_order history ↔ x ∈ history.
Proof.
  induction history as [|vpn history IH] using rev_ind; [done|].
  rewrite mru_order_snoc, elem_of_stack_touch, elem_of_app, list_elem_of_singleton.
  rewrite IH. tauto.
Qed.

Lemma elem_of_set_history x s i vpns :
  x ∈ set_history s i vpns ↔ set_of s x = i ∧ x ∈ vpns.
Proof. unfold set_history. by rewrite list_elem_of_filter. Qed.

Lemma set_history_snoc_same s vpns vpn :
  set_history s (set_of s vpn) (vpns ++ [vpn])
  = set_history s (set_of s vpn) vpns ++ [vpn].
Proof.
  unfold set_history. rewrite filter_app. f_equal.
  by rewrite filter_cons_True.
Qed.

Lemma set_history_snoc_other s i vpns vpn :
  set_of s vpn ≠ i → set_history s i (vpns ++ [vpn]) = set_history s i vpns.
Proof.
  intros Hne. unfold set_history. rewrite filter_app.
  rewrite (filter_cons_False _ vpn) by done. simpl.
  change (filter _ []) with (@nil Z). by rewrite (right_id_L [] (++)).
Qed.

Lemma init_tracks s : tracks s [] (replicate (Z.to_nat s) []).
Proof.
  split; [apply length_replicate|]. intros i Hi.
  by rewrite lookup_replicate_2.
Qed.

Lemma tracks_step s past stacks vpn stack :
  tracks s past stacks →
  stacks !! set_of s vpn = Some stack →
  tracks s (past ++ [vpn]) (<[set_of s vpn := stack_touch vpn stack]> stacks).
Proof.
  intros [Hlen Hstacks] Hstack. split; [by rewrite length_insert|].
  intros i Hi. destruct (decide (set_of s vpn = i)) as [<-|Hne].
  - rewrite list_lookup_insert_eq by lia.
    rewrite set_history_snoc_same, mru_order_snoc.
    rewrite (Hstacks _ Hi) in Hstack. by injection Hstack as <-.
  - rewrite list_lookup_insert_ne by done.
    rewrite set_history_snoc_other by done. by apply Hstacks.
Qed.

(** ** The TLB against the LRU specification *)

Lemma access_all_lru s w t stacks past vpns :
  tlb_shape s w t → models w stacks t → tracks s past stacks →
  ∃ t' stacks',
    access_all t vpns = Ok (lru_results s w past vpns, t') ∧
    tlb_shape s w t' ∧ models w stacks' t' ∧ tracks s (past ++ vpns) stacks'.
Proof.
  revert t stacks past.
  induction vpns as [|vpn vpns IH]; intros t stacks past Hshape Hm Htr.
  - exists t, stacks. by rewrite (right_id_L [] (++)).
  - destruct (access_models s w t stacks vpn Hshape Hm) as (stack & Hst & _ & Hacc).
    fold (set_of s vpn) in Hst, Hacc.
    destruct (index_in_range s w t vpn Hshape) as (_ & _ & Hi).
    fold (set_of s vpn) in Hi. rewrite (shape_len _ _ _ Hshape) in Hi.
    pose proof (proj2 Htr _ Hi) as Hmru. rewrite Hst in Hmru.
    injection Hmru as ->.
    set (stacks1 := <[set_of s vpn := _]> stacks) in *.
    destruct (IH (set_buckets t (take (Z.to_nat w) <$> stacks1)) stacks1
                 (past ++ [vpn])) as (t' & stacks' & Hall & ? & ? & Htr').
    + apply set_buckets_shape; [done|].
      destruct Hm as [_ ->]. unfold stacks1.
      by rewrite !length_fmap, length_insert.
    + split; [|done]. apply Forall_insert; [by destruct Hm|].
      apply stack_touch_NoDup, mru_order_NoDup.
    + by apply tracks_step.
    + exists t', stacks'. simpl. rewrite Hacc. simpl. rewrite Hall. simpl.
      rewrite <- (assoc_L (++)) in Htr'. done.
Qed.

Lemma init_access_all_lru s w t0 vpns :
  __init__ s w = Ok t0 →
  ∃ t stacks,
    access_all t0 vpns = Ok (lru_results s w [] vpns, t) ∧
    tlb_shape s w t ∧ models w stacks t ∧ tracks s vpns stacks.
Proof.
  intros Hinit. destruct (init_models _ _ _ Hinit) as (Hshape & Hm & _).
  apply (access_all_lru s w t0 _ [] vpns Hshape Hm (init_tracks s)).
Qed.

Lemma lru_results_lookup s w past vpns k vpn :
  vpns !! k = Some vpn →
  lru_results s w past vpns !! k
  = Some (bool_decide
            (vpn ∈ take (Z.to_nat w)
                     (mru_order
                        (set_history s (set_of s vpn) (past ++ take k vpns))))).
Proof.
  revert past k. induction vpns as [|v vpns IH]; intros past k; [done|].
  destruct k as [|k]; simpl.
  - intros [= ->]. by rewrite (right_id_L [] (++)).
  - intros Hk. rewrite (IH (past ++ [v]) k Hk). by rewrite <- (assoc_L (++)).
Qed.

Lemma reachable_tracks s w t :
  reachable s w t →
  tlb_shape s w t ∧ ∃ stacks past, models w stacks t ∧ tracks s past stacks.
Proof.
  induction 1 as [t Hinit|t vpn hit t' _ (Hshape & stacks & past & Hm & Htr) Hacc].
  - destruct (init_models _ _ _ Hinit) as (Hshape & Hm & _).
    split; [done|]. exists (replicate (Z.to_nat s) []), []. split; [done|].
    apply init_tracks.
  - destruct (access_all_lru s w t stacks past [vpn] Hshape Hm Htr)
      as (t1 & stacks1 & Hall & ? & ? & ?).
    simpl in Hall. rewrite Hacc in Hall. simpl in Hall. injection Hall as _ <-.
    split; [done|]. by exists stacks1, (past ++ [vpn]).
Qed.

Lemma sum_lengths_bound (n : nat) (l : list (list Z)) :
  Forall (λ b, (length b ≤ n)%nat) l →
  (sum_list (length <$> l) ≤ length l * n)%nat.
Proof.
  induction 1 as [|b l Hb _ IH]; [done|].
  rewrite fmap_cons. simpl. lia.
Qed.

(** X1. In every state of a validly built TLB the set index of a VPN is
    the VPN modulo [sets], so it lies in [0, sets); this holds for negative
    VPNs too ([&] on Python integers). *)
Theorem index_is_modulo s w t vpn :
  reachable s w t →
  _index t vpn = vpn `mod` s ∧ 0 ≤ _index t vpn < s.
Proof.
  intros Hr. destruct (reachable_inv _ _ _ Hr) as [Hshape _].
  destruct (index_in_range s w t vpn Hshape) as (Hrange & _ & _).
  split; [|done].
  destruct Hshape as [(Hs & Hw & k & Hk & ->) _ _ Hmask _].
  unfold _index. rewrite Hmask. by apply index_pow2.
Qed.

Lemma index_is_modulo_witness :
  let t := mkTLB 4 2 [[]; []; []; []] 3 in
  _index t (-3) = (-3) `mod` 4 ∧ 0 ≤ _index t (-3) < 4.
Proof.
  apply (index_is_modulo 4 2 (mkTLB 4 2 [[]; []; []; []] 3) (-3)).
  apply reach_init. reflexivity.
Defined.

(** X2. [is_power_of_two] holds exactly of the powers of two; a [sets]
    that passes it, with a positive [ways], is accepted by [__init__], and
    a [sets] that fails it makes [__init__] raise. *)
Theorem is_power_of_two_init sets ways :
  (is_power_of_two sets = true ↔ pow2 sets) ∧
  (is_power_of_two sets = true → 0 < ways → ∃ t, __init__ sets ways = Ok t) ∧
  (is_power_of_two sets = false → __init__ sets ways = Raise AssertionError).
Proof.
  assert (is_power_of_two sets = true ↔ pow2 sets) as Hiff.
  { unfold is_power_of_two. rewrite andb_true_iff, !bool_decide_eq_true. split.
    - intros [Hs Hl]. apply land_pred_pow2; [lia|done].
    - intros (k & Hk & ->). split; [|by apply pow2_land_pred].
      pose proof (Z.pow_pos_nonneg 2 k). lia. }
  split_and!; [done| |].
  - intros Hp Hw. eexists. apply init_ok. split_and!; [|done|by apply Hiff].
    apply Hiff in Hp as (k & Hk & ->). by apply Z.pow_pos_nonneg.
  - intros Hp. apply init_raises. intros (_ & _ & Hpow).
    apply Hiff in Hpow. congruence.
Qed.

Lemma is_power_of_two_init_witness :
  (∃ t, __init__ 64 4 = Ok t) ∧ __init__ 48 4 = Raise AssertionError.
Proof.
  split.
  - apply (proj1 (proj2 (is_power_of_two_init 64 4))); [reflexivity|lia].
  - apply (proj2 (proj2 (is_power_of_two_init 48 4))). reflexivity.
Defined.

(** X3. The TLB refines LRU: from a fresh TLB, any run of accesses
    returns, and each access hits exactly when its VPN is among the [ways]
    most recently used distinct VPNs of its set. *)
Theorem lru_refinement s w t0 vpns :
  __init__ s w = Ok t0 →
  ∃ t, access_all t0 vpns = Ok (lru_results s w [] vpns, t).
Proof.
  intros Hinit.
  destruct (init_access_all_lru s w t0 vpns Hinit) as (t & _ & Hall & _).
  by exists t.
Qed.

Lemma lru_refinement_witness :
  ∃ t, access_all (mkTLB 2 2 [[]; []] 1) [4; 6; 8; 6; 4; 5; 5]
       = Ok (lru_results 2 2 [] [4; 6; 8; 6; 4; 5; 5], t).
Proof.
  apply (lru_refinement 2 2 (mkTLB 2 2 [[]; []] 1) [4; 6; 8; 6; 4; 5; 5]).
  reflexivity.
Defined.

(** X4. After any run of accesses from a fresh TLB, set [i] holds the
    [ways] most recently used distinct VPNs among those that map to [i],
    most recent first. *)
Theorem set_contents s w t0 vpns rs t i :
  __init__ s w = Ok t0 →
  access_all t0 vpns = Ok (rs, t) →
  (i < Z.to_nat s)%nat →
  buckets t !! i = Some (take (Z.to_nat w) (mru_order (set_history s i vpns))).
Proof.
  intros Hinit Hall Hi.
  destruct (init_access_all_lru s w t0 vpns Hinit)
    as (t' & stacks & Hall' & _ & [_ Hbs] & [_ Htr]).
  rewrite Hall in Hall'. injection Hall' as _ <-.
  by rewrite Hbs, list_lookup_fmap, (Htr _ Hi).
Qed.

Lemma set_contents_witness :
  buckets (mkTLB 2 2 [[4; 6]; [5]] 1) !! 0%nat
  = Some (take (Z.to_nat 2)
            (mru_order (set_history 2 0 [4; 6; 8; 6; 4; 5; 5]))).
Proof.
  apply (set_contents 2 2 (mkTLB 2 2 [[]; []] 1) [4; 6; 8; 6; 4; 5; 5]
           [false; false; false; true; false; false; true]).
  - reflexivity.
  - reflexivity.
  - simpl. lia.
Defined.

(** X5. From a fresh TLB a hit is always a re-access: an access that hits
    has the same VPN as an earlier access of the run.  In particular the
    first access to a page misses. *)
Theorem hit_is_reaccess s w t0 vpns rs t k :
  __init__ s w = Ok t0 →
  access_all t0 vpns = Ok (rs, t) →
  rs !! k = Some true →
  ∃ j vpn, (j < k)%nat ∧ vpns !! j = Some vpn ∧ vpns !! k = Some vpn.
Proof.
  intros Hinit Hall Hk.
  destruct (init_access_all_lru s w t0 vpns Hinit) as (t' & _ & Hall' & _).
  rewrite Hall in Hall'. injection Hall' as -> _.
  pose proof (access_all_length _ _ _ _ Hall) as Hlen.
  destruct (lookup_lt_is_Some_2 vpns k) as [vpn Hvpn].
  { rewrite <- Hlen. by eapply lookup_lt_Some. }
  rewrite (lru_results_lookup _ _ _ _ _ _ Hvpn) in Hk.
  injection Hk as Hk. apply bool_decide_eq_true in Hk.
  apply subseteq_take, elem_of_mru_order, elem_of_set_history in Hk as [_ Hk].
  simpl in Hk. apply elem_of_take in Hk as (j & Hj & Hlt).
  by exists j, vpn.
Qed.

Lemma hit_is_reaccess_witness :
  ∃ j vpn, (j < 3)%nat ∧ [4; 6; 8; 6] !! j = Some vpn ∧
           [4; 6; 8; 6] !! 3%nat = Some vpn.
Proof.
  apply (hit_is_reaccess 2 2 (mkTLB 2 2 [[]; []] 1) [4; 6; 8; 6]
           [false; false; false; true] (mkTLB 2 2 [[6; 8]; []] 1) 3).
  - reflexivity.
  - reflexivity.
  - reflexivity.
Defined.

(** X6. If the VPNs of a run that map to the set of [vpn] number at most
    [ways] distinct ones, then from a fresh TLB every re-access of [vpn]
    hits: without more pages than ways in a set nothing is evicted from
    it. *)
Theorem reaccess_hits_when_set_fits s w t0 vpns rs t j k vpn :
  __init__ s w = Ok t0 →
  access_all t0 vpns = Ok (rs, t) →
  Z.of_nat (length (remove_dups (set_history s (set_of s vpn) vpns))) ≤ w →
  (j < k)%nat → vpns !! j = Some vpn → vpns !! k = Some vpn →
  rs !! k = Some true.
Proof.
  intros Hinit Hall Hfits Hjk Hj Hk.
  destruct (init_access_all_lru s w t0 vpns Hinit) as (t' & _ & Hall' & _).
  rewrite Hall in Hall'. injection Hall' as -> _.
  rewrite (lru_results_lookup _ _ _ _ _ _ Hk). f_equal.
  apply bool_decide_eq_true. simpl.
  set (m := mru_order (set_history s (set_of s vpn) (take k vpns))).
  assert (vpn ∈ m) as Hin.
  { apply elem_of_mru_order, elem_of_set_history. split; [done|].
    apply elem_of_take. by exists j. }
  assert (length m ≤ length (remove_dups (set_history s (set_of s vpn) vpns)))%nat
    as Hlen.
  { apply submseteq_length, NoDup_submseteq; [apply mru_order_NoDup|].
    intros x Hx. apply elem_of_remove_dups, elem_of_set_history.
    apply elem_of_mru_order, elem_of_set_history in Hx as [Hset Hx].
    split; [done|]. by eapply subseteq_take. }
  rewrite take_ge by lia. done.
Qed.

Lemma reaccess_hits_when_set_fits_witness :
  [false; false; false; true; true] !! 4%nat = Some true.
Proof.
  apply (reaccess_hits_when_set_fits 2 2 (mkTLB 2 2 [[]; []] 1)
           [4; 6; 5; 6; 4] [false; false; false; true; true]
           (mkTLB 2 2 [[4; 6]; [5]] 1) 0 4 4).
  - reflexivity.
  - reflexivity.
  - vm_compute. discriminate.
  - lia.
  - reflexivity.
  - reflexivity.
Defined.

(** X7. The VPN just accessed is resident: accessing it again right away
    hits and changes nothing. *)
Theorem reaccess_idempotent s w t vpn hit t' :
  reachable s w t →
  access t vpn = Ok (hit, t') →
  access t' vpn = Ok (true, t').
Proof.
  intros Hr Hacc.
  destruct (reachable_models _ _ _ Hr) as [Hshape [stacks Hm]].
  destruct (access_models s w t stacks vpn Hshape Hm) as (stack & Hst & _ & Hacc').
  rewrite Hacc in Hacc'. injection Hacc' as -> ->.
  set (i := Z.to_nat (Z.land vpn (s - 1))) in *.
  set (stacks' := <[i := stack_touch vpn stack]> stacks).
  set (t' := set_buckets t (take (Z.to_nat w) <$> stacks')).
  assert (0 < w) as Hw by (by destruct Hshape as [(? & ? & ?) _ _ _ _]).
  assert (i < length stacks)%nat as Hi by (by eapply lookup_lt_Some).
  assert (tlb_shape s w t') as Hshape'.
  { apply set_buckets_shape; [done|]. destruct Hm as [_ ->].
    unfold stacks'. by rewrite !length_fmap, length_insert. }
  assert (models w stacks' t') as Hm'.
  { split; [|done]. apply Forall_insert; [by destruct Hm|].
    apply stack_touch_NoDup. eapply Forall_lookup_1; [by destruct Hm|done]. }
  destruct (access_models s w t' stacks' vpn Hshape' Hm')
    as (stack' & Hst' & _ & ->). fold i in Hst' |- *.
  unfold stacks' in Hst'. rewrite list_lookup_insert_eq in Hst' by done.
  injection Hst' as <-. f_equal. f_equal.
  - apply bool_decide_eq_true. unfold stack_touch.
    destruct (Z.to_nat w) as [|n] eqn:Hn; [lia|]. simpl. apply list_elem_of_here.
  - rewrite stack_touch_idem. unfold stacks'. rewrite list_insert_insert_eq.
    done.
Qed.

Lemma reaccess_idempotent_witness :
  access (mkTLB 2 2 [[8; 6]; [5]] 1) 8
  = Ok (true, mkTLB 2 2 [[8; 6]; [5]] 1).
Proof.
  apply (reaccess_idempotent 2 2 (mkTLB 2 2 [[6; 4]; [5]] 1) 8 false).
  - apply (access_all_reachable 2 2 (mkTLB 2 2 [[]; []] 1) [4; 5; 6]
             [false; false; false]); [apply reach_init|]; reflexivity.
  - reflexivity.
Defined.

(** X8. A validly built TLB never holds more than [sets * ways] entries
    in all. *)
Theorem capacity_bound s w t :
  reachable s w t →
  Z.of_nat (sum_list (length <$> buckets t)) ≤ s * w.
Proof.
  intros Hr. destruct (reachable_inv _ _ _ Hr) as [Hshape Hinv].
  destruct Hshape as [(Hs & Hw & _) _ Hways _ Hlen].
  pose proof (sum_lengths_bound (Z.to_nat w) (buckets t)) as Hsum.
  rewrite Hlen in Hsum. unfold tlb_inv in Hinv. rewrite Hways in Hinv.
  assert (Forall (λ b : list Z, (length b ≤ Z.to_nat w)%nat) (buckets t)) as Hall.
  { eapply Forall_impl; [exact Hinv|]. intros b [Hb _]. simpl. lia. }
  specialize (Hsum Hall). nia.
Qed.

Lemma capacity_bound_witness :
  Z.of_nat (sum_list (length <$> buckets (mkTLB 2 2 [[6; 4]; [5]] 1))) ≤ 2 * 2.
Proof.
  apply (capacity_bound 2 2 (mkTLB 2 2 [[6; 4]; [5]] 1)).
  apply (access_all_reachable 2 2 (mkTLB 2 2 [[]; []] 1) [4; 5; 6]
           [false; false; false]); [apply reach_init|]; reflexivity.
Defined.

(** X9. An entry sits only in the set its VPN maps to: in every state of
    a validly built TLB, a VPN found in set [i] has index [i]. *)
Theorem entries_in_own_set s w t i bucket vpn :
  reachable s w t →
  buckets t !! i = Some bucket →
  vpn ∈ bucket →
  Z.to_nat (_index t vpn) = i.
Proof.
  intros Hr Hb Hin.
  destruct (reachable_tracks _ _ _ Hr)
    as (Hshape & stacks & past & [_ Hbs] & [Hlen Htr]).
  assert (i < Z.to_nat s)%nat as Hi.
  { apply lookup_lt_Some in Hb. by rewrite Hbs, length_fmap, Hlen in Hb. }
  rewrite Hbs, list_lookup_fmap, (Htr _ Hi) in Hb. injection Hb as <-.
  apply subseteq_take, elem_of_mru_order, elem_of_set_history in Hin as [Hset _].
  unfold _index. by rewrite (shape_mask _ _ _ Hshape).
Qed.

Lemma entries_in_own_set_witness :
  Z.to_nat (_index (mkTLB 2 2 [[6; 4]; [5]] 1) 5) = 1%nat.
Proof.
  apply (entries_in_own_set 2 2 (mkTLB 2 2 [[6; 4]; [5]] 1) 1 [5] 5).
  - apply (access_all_reachable 2 2 (mkTLB 2 2 [[]; []] 1) [4; 5; 6]
             [false; false; false]); [apply reach_init|]; reflexivity.
  - reflexivity.
  - apply list_elem_of_here.
Defined.

(** ** The trace generator: ranges, errors, the two extremes of locality *)

Section TraceFacts.
Context {G : Type} `{RandomLaws G}.
Context (vpages page_size : Z) (locality_prob : Q) (locality_window : Z).

Lemma randrange_inv stop (w w' : World G) r :
  randrange stop w = (Ok r, w') → 0 < stop ∧ 0 ≤ r < stop.
Proof.
  unfold randrange. case_bool_decide as Hs; [|done].
  unfold randbelow. intros [= <- _]. split; [lia|].
  apply rnd_below_range. lia.
Qed.

Lemma randrange_raises stop (w : World G) :
  stop ≤ 0 → randrange stop w = (Raise ValueError, w).
Proof. intros Hs. unfold randrange. by rewrite bool_decide_false by lia. Qed.

Lemma trace_step_range current (w w' : World G) r :
  0 < vpages →
  trace_step vpages page_size locality_prob locality_window current w
  = (Ok r, w') →
  0 ≤ r.1.1 < vpages ∧ 0 ≤ r.1.2 < page_size.
Proof.
  intros Hv. unfold trace_step.
  rewrite (bind_ok random _ w (rnd_random (rng w)).1
             (mkWorld (rnd_random (rng w)).2 (stdout w))) by done.
  set (w1 := mkWorld _ _).
  destruct (negb _).
  - unfold randint. case_bool_decide as Hwidth.
    2: { unfold mbind, M_bind, lift. simpl. done. }
    unfold mbind, M_bind, randbelow, lift, py_mod. simpl.
    rewrite bool_decide_false by lia. simpl.
    destruct (randrange page_size _) as [[offset|e] w2] eqn:Hoff; [|done].
    intros [= <- _]. simpl. apply randrange_inv in Hoff as [_ Hoff].
    split; [by apply Z.mod_pos_bound|done].
  - unfold mbind, M_bind. simpl.
    destruct (randrange vpages w1) as [[vpn|e] w2] eqn:Hvpn; [|done].
    simpl.
    destruct (randrange page_size w2) as [[offset|e] w3] eqn:Hoff; [|done].
    intros [= <- _]. simpl.
    apply randrange_inv in Hvpn as [_ Hvpn].
    apply randrange_inv in Hoff as [_ Hoff]. done.
Qed.

Lemma trace_loop_Forall (P : Z * Z → Prop) (C : Z → Prop) n refs current
    (w w' : World G) trace :
  (∀ c w1 w2 r,
     C c →
     trace_step vpages page_size locality_prob locality_window c w1
     = (Ok r, w2) → P r.1 ∧ C r.2) →
  C current → Forall P refs →
  trace_loop n vpages page_size locality_prob locality_window refs current w
  = (Ok trace, w') →
  Forall P trace.
Proof.
  intros Hstep. revert refs current w.
  induction n as [|n IH]; intros refs current w Hc Hrefs; simpl.
  - by intros [= <- _].
  - unfold mbind, M_bind.
    destruct (trace_step _ _ _ _ current w) as [[r|e] w1] eqn:Hs; [|done].
    destruct (Hstep _ _ _ _ Hc Hs) as [Hp Hc'].
    apply IH; [done|]. apply Forall_app. split; [done|]. by apply Forall_singleton.
Qed.

Lemma generate_trace_inv n_accesses seed (w w' : World G) trace :
  generate_trace n_accesses vpages page_size locality_prob locality_window
    seed w = (Ok trace, w') →
  ∃ current w1,
    0 < vpages ∧ 0 ≤ current < vpages ∧
    trace_loop (Z.to_nat n_accesses) vpages page_size locality_prob
      locality_window [] current w1 = (Ok trace, w').
Proof.
  unfold generate_trace, mbind, M_bind. simpl.
  destruct (randrange vpages _) as [[current|e] w1] eqn:Hc; [|done].
  intros Hloop. apply randrange_inv in Hc as [Hv Hc]. by exists current, w1.
Qed.

Lemma trace_step_jump current current' locality_window' (w : World G) :
  (locality_prob <= 0)%Q →
  trace_step vpages page_size locality_prob locality_window current w
  = trace_step vpages page_size locality_prob locality_window' current' w.
Proof.
  intros Hp. unfold trace_step.
  rewrite !(bind_ok random _ w (rnd_random (rng w)).1
              (mkWorld (rnd_random (rng w)).2 (stdout w))) by done.
  assert (Qle_bool locality_prob (rnd_random (rng w)).1 = true) as ->; [|done].
  apply Qle_bool_iff. eapply Qle_trans; [exact Hp|].
  apply rnd_random_range.
Qed.

Lemma trace_loop_jump n refs current current' locality_window' (w : World G) :
  (locality_prob <= 0)%Q →
  trace_loop n vpages page_size locality_prob locality_window refs current w
  = trace_loop n vpages page_size locality_prob locality_window' refs current' w.
Proof.
  intros Hp. revert refs current current' w.
  induction n as [|n IH]; intros refs current current' w; simpl; [done|].
  unfold mbind, M_bind.
  rewrite (trace_step_jump current current' locality_window' w Hp).
  destruct (trace_step _ _ _ _ current' w) as [[r|e] w1]; [|done].
  apply IH.
Qed.

End TraceFacts.

(** X10. Every pair of a generated trace has its VPN in [0, vpages) and
    its offset in [0, page_size): the locality branch wraps by the modulo
    and never yields a negative VPN. *)
Theorem trace_in_range {G : Type} `{RandomLaws G} n_accesses vpages page_size
    locality_prob locality_window seed (w w' : World G) trace :
  generate_trace n_accesses vpages page_size locality_prob locality_window
    seed w = (Ok trace, w') →
  Forall (λ r, 0 ≤ r.1 < vpages ∧ 0 ≤ r.2 < page_size) trace.
Proof.
  intros Hgen.
  destruct (generate_trace_inv _ _ _ _ _ _ _ _ _ Hgen)
    as (current & w1 & Hv & _ & Hloop).
  eapply (trace_loop_Forall vpages page_size locality_prob locality_window
            _ (λ _, True)); [|done|apply Forall_nil_2|exact Hloop].
  intros c w2 w3 r _ Hstep. split; [|done].
  by eapply trace_step_range.
Qed.

Lemma trace_in_range_witness :
  Forall (λ r, 0 ≤ r.1 < 64 ∧ 0 ≤ r.2 < 256)
    [(2, 12); (4, 6); (2, 0); (3, 5); (1, 247); (2, 255); (4, 77); (3, 0);
     (6, 1); (0, 3); (63, 12); (1, 6)].
Proof.
  apply (trace_in_range 12 64 256 (85 # 100) 4 3 world0
           (generate_trace 12 64 256 (85 # 100) 4 3 world0).2).
  vm_compute. reflexivity.
Defined.

(** X11. With [vpages] and [page_size] positive and [locality_window] not
    negative, [generate_trace] returns; the trace has [max(0, n_accesses)]
    pairs and nothing is printed. *)
Theorem generate_trace_returns {G : Type} `{Random G} n_accesses vpages
    page_size locality_prob locality_window seed (w : World G) :
  0 < vpages → 0 < page_size → 0 ≤ locality_window →
  ∃ trace w',
    generate_trace n_accesses vpages page_size locality_prob locality_window
      seed w = (Ok trace, w') ∧
    Z.of_nat (length trace) = Z.max 0 n_accesses ∧
    stdout w' = stdout w.
Proof.
  intros Hv Hp Hw.
  destruct (generate_trace_ok n_accesses vpages page_size locality_prob
              locality_window seed w Hv Hp Hw) as (trace & w' & Hgen).
  exists trace, w'. split; [done|]. split.
  - apply generate_trace_length in Hgen. lia.
  - rewrite generate_trace_seeded in Hgen. by injection Hgen as _ <-.
Qed.

Lemma generate_trace_returns_witness :
  ∃ trace w',
    generate_trace (-5) 64 256 (85 # 100) 4 3 world0 = (Ok trace, w') ∧
    Z.of_nat (length trace) = Z.max 0 (-5) ∧
    stdout w' = stdout world0.
Proof.
  apply (generate_trace_returns (-5) 64 256 (85 # 100) 4 3 world0); lia.
Defined.

(** X12. [generate_trace] raises [ValueError] when [vpages] is not
    positive (after reseeding, before any pair is made) and, for at least
    one access, when [page_size] is not positive; with [n_accesses] not
    positive it returns the empty trace. *)
Theorem generate_trace_edges {G : Type} `{Random G} n_accesses vpages
    page_size locality_prob locality_window seed (w : World G) :
  let gen := generate_trace n_accesses vpages page_size locality_prob
               locality_window seed in
  (vpages ≤ 0 →
   gen w = (Raise ValueError, mkWorld (rnd_seed seed) (stdout w))) ∧
  (0 < vpages → n_accesses ≤ 0 → (gen w).1 = Ok []) ∧
  (0 < vpages → 0 < n_accesses → 0 ≤ locality_window → page_size ≤ 0 →
   (gen w).1 = Raise ValueError).
Proof.
  intros gen. unfold gen, generate_trace. split_and!.
  - intros Hv. unfold mbind, M_bind. simpl.
    by rewrite randrange_raises.
  - intros Hv Hn. unfold mbind, M_bind. simpl.
    destruct (randrange_ok vpages (mkWorld (rnd_seed seed) (stdout w)) Hv)
      as (c & w1 & ->).
    by replace (Z.to_nat n_accesses) with 0%nat by lia.
  - intros Hv Hn Hw Hp. unfold mbind, M_bind. simpl.
    destruct (randrange_ok vpages (mkWorld (rnd_seed seed) (stdout w)) Hv)
      as (c & w1 & ->).
    destruct (Z.to_nat n_accesses) as [|n] eqn:Hnat; [lia|]. simpl.
    unfold mbind, M_bind, trace_step. unfold mbind, M_bind. simpl.
    pose proof (delta_bounds_ordered _ Hw) as Hd.
    unfold delta_bounds in *. simpl in Hd.
    destruct (negb _).
    + unfold randint. rewrite bool_decide_true by lia.
      unfold mbind, M_bind, lift, py_mod. simpl.
      rewrite bool_decide_false by lia. simpl.
      by rewrite randrange_raises.
    + unfold randrange at 1. rewrite bool_decide_true by lia. simpl.
      by rewrite randrange_raises.
Qed.

Lemma generate_trace_edges_witness :
  generate_trace 5 0 256 (85 # 100) 4 3 world0
  = (Raise ValueError, mkWorld (rnd_seed 3) (stdout world0)) ∧
  (generate_trace 0 64 256 (85 # 100) 4 3 world0).1 = Ok [] ∧
  (generate_trace 5 64 0 (85 # 100) 4 3 world0).1 = Raise ValueError.
Proof.
  split_and!.
  - apply (proj1 (generate_trace_edges 5 0 256 (85 # 100) 4 3 world0)). lia.
  - apply (proj1 (proj2 (generate_trace_edges 0 64 256 (85 # 100) 4 3 world0)));
      lia.
  - apply (proj2 (proj2 (generate_trace_edges 5 64 0 (85 # 100) 4 3 world0)));
      lia.
Defined.

(** X13. With [locality_prob] not above 0 the locality branch is never
    taken, and the trace (and the state the generator is left in) does not
    depend on [locality_window]. *)
Theorem no_locality_ignores_window {G : Type} `{RandomLaws G} n_accesses
    vpages page_size locality_prob window1 window2 seed (w : World G) :
  (locality_prob <= 0)%Q →
  generate_trace n_accesses vpages page_size locality_prob window1 seed w
  = generate_trace n_accesses vpages page_size locality_prob window2 seed w.
Proof.
  intros Hp. unfold generate_trace, mbind, M_bind. simpl.
  destruct (randrange vpages _) as [[current|e] w1]; [|done].
  by apply trace_loop_jump.
Qed.

Lemma no_locality_ignores_window_witness :
  generate_trace 6 64 256 0 1 3 world0 = generate_trace 6 64 256 0 16 3 world0.
Proof.
  apply (no_locality_ignores_window 6 64 256 0 1 16 3 world0).
  unfold Qle. simpl. lia.
Defined.

(** X14. With [locality_prob] at least 1 the center never moves: every
    VPN of the trace is the initial center, a page of [0, vpages), moved by
    a delta within the bounds handed to [randint], modulo [vpages]. *)
Theorem full_locality_stays_near_center {G : Type} `{RandomLaws G} n_accesses
    vpages page_size locality_prob locality_window seed (w w' : World G) trace :
  (1 <= locality_prob)%Q →
  generate_trace n_accesses vpages page_size locality_prob locality_window
    seed w = (Ok trace, w') →
  ∃ center,
    0 ≤ center < vpages ∧
    Forall (λ r, ∃ delta,
              (delta_bounds locality_window).1 ≤ delta
              ≤ (delta_bounds locality_window).2 ∧
              r.1 = (center + delta) `mod` vpages) trace.
Proof.
  intros Hp Hgen.
  destruct (generate_trace_inv _ _ _ _ _ _ _ _ _ Hgen)
    as (center & w1 & Hv & Hc & Hloop).
  exists center. split; [done|].
  eapply (trace_loop_Forall vpages page_size locality_prob locality_window
            _ (λ c, c = center)); [|done|apply Forall_nil_2|exact Hloop].
  intros c w2 w3 r -> Hstep.
  destruct (trace_step_local vpages page_size locality_prob locality_window
              center w2 w3 r) as [Hcur Hdelta]; [|done|done].
  eapply Qlt_le_trans; [|exact Hp]. apply rnd_random_range.
Qed.

Lemma full_locality_stays_near_center_witness :
  ∃ center,
    0 ≤ center < 64 ∧
    Forall (λ r, ∃ delta,
              (delta_bounds 4).1 ≤ delta ≤ (delta_bounds 4).2 ∧
              r.1 = (center + delta) `mod` 64)
      [(2, 12); (4, 6); (2, 0); (3, 5); (1, 247); (2, 255)].
Proof.
  apply (full_locality_stays_near_center 6 64 256 1 4 3 world0
           (generate_trace 6 64 256 1 4 3 world0).2).
  - unfold Qle. simpl. lia.
  - vm_compute. reflexivity.
Defined.

(** ** The driver: totality, errors, the EMAT formula, the progress bar *)

Section DriverFacts.
Context {G : Type} `{Random G}.

Lemma print_bind {B} (s : string) (k : unit → M G B) (w : World G) :
  (print s ≫= k) w = k tt (mkWorld (rng w) (stdout w ++ [s])).
Proof. done. Qed.

Lemma ret_bind {A B} (a : A) (k : A → M G B) (w : World G) :
  (mret a ≫= k) w = k a w.
Proof. done. Qed.

Lemma progress_line_full accesses :
  0 < accesses →
  progress_line accesses accesses = progress_line 1 1.
Proof.
  intros Hn. unfold progress_line.
  rewrite (Z.mul_comm accesses 100), Z.quot_mul by lia. done.
Qed.

(** Under [show_progress] the last thing the main loop prints is the
    report of the final step. *)
Lemma sim_loop_last_line accesses step t_tlb t_mem t_pagewalk trace i st st'
    (w w' : World G) :
  trace ≠ [] →
  i + Z.of_nat (length trace) - 1 = accesses →
  sim_loop true accesses step t_tlb t_mem t_pagewalk trace i st w = (Ok st', w') →
  ∃ pre, stdout w' = stdout w ++ pre ++ [progress_line accesses accesses].
Proof.
  revert i st w. induction trace as [|[vpn o] trace IH]; intros i st w; [done|].
  intros _ Hi. simpl sim_loop. rewrite bind_lift.
  destruct (access (l_tlb st) vpn) as [[hit t1]|e]; [|done].
  set (st1 := if (hit, t1).1 then _ else _). clearbody st1.
  destruct trace as [|x trace].
  - simpl in Hi. assert (i = accesses) as -> by lia.
    rewrite (bool_decide_true (accesses = accesses)) by done.
    rewrite orb_true_r. simpl andb. cbv iota. rewrite print_bind. simpl.
    intros [= _ <-]. by exists [].
  - simpl andb.
    destruct (bool_decide (i `mod` step = 0) || bool_decide (i = accesses)).
    + rewrite print_bind. intros Hloop.
      destruct (IH (i + 1) st1 _ ltac:(done) ltac:(simpl length in *; lia) Hloop)
        as [pre Hpre].
      exists (progress_line i accesses :: pre). rewrite Hpre. simpl.
      by rewrite <- (assoc_L (++)).
    + rewrite ret_bind. intros Hloop.
      destruct (IH (i + 1) st1 _ ltac:(done) ltac:(simpl length in *; lia) Hloop)
        as [pre Hpre].
      by exists pre.
Qed.

End DriverFacts.

(** X16. [run_tlb_sim] raises [AssertionError] on an invalid [sets] or
    [ways] before it draws or prints anything; with a valid configuration
    it raises [ValueError] when [vpages] is not positive and
    [ZeroDivisionError] when [n_accesses] is not positive (the trace is
    empty and the rates divide by its length). *)
Theorem run_errors {G : Type} `{Random G} sets ways vpages page_size
    n_accesses locality_prob locality_window t_tlb t_mem t_pagewalk seed
    show_progress (w : World G) :
  let run := run_tlb_sim sets ways vpages page_size n_accesses locality_prob
               locality_window t_tlb t_mem t_pagewalk seed show_progress in
  (sets ≤ 0 ∨ ways ≤ 0 ∨ ¬ pow2 sets → run w = (Raise AssertionError, w)) ∧
  (0 < sets → pow2 sets → 0 < ways → vpages ≤ 0 →
   (run w).1 = Raise ValueError) ∧
  (0 < sets → pow2 sets → 0 < ways → 0 < vpages → n_accesses ≤ 0 →
   (run w).1 = Raise ZeroDivisionError).
Proof.
  intros run.
  destruct (run_tlb_sim_result sets ways vpages page_size n_accesses
              locality_prob locality_window t_tlb t_mem t_pagewalk seed
              show_progress w) as (Hres & _ & _).
  pose proof (generate_trace_edges n_accesses vpages page_size locality_prob
                locality_window seed w) as (Hg1 & Hg2 & _).
  split_and!.
  - intros Hbad. unfold run, run_tlb_sim. rewrite bind_lift.
    rewrite init_raises; [done|]. intros (? & ? & ?).
    destruct Hbad as [?|[?|?]]; [lia|lia|done].
  - intros Hs Hpow Hw Hv. unfold run. rewrite Hres.
    rewrite init_ok by done. simpl. by rewrite (Hg1 Hv).
  - intros Hs Hpow Hw Hv Hn. unfold run. rewrite Hres.
    rewrite init_ok by done. simpl. by rewrite (Hg2 Hv Hn).
Qed.

Lemma run_errors_witness :
  run_tlb_sim 64 0 8192 4096 100 (85 # 100) 16 1 100 300 123 true world0
  = (Raise AssertionError, world0) ∧
  (run_tlb_sim 64 4 0 4096 100 (85 # 100) 16 1 100 300 123 true world0).1
  = Raise ValueError ∧
  (run_tlb_sim 64 4 8192 4096 0 (85 # 100) 16 1 100 300 123 true world0).1
  = Raise ZeroDivisionError.
Proof.
  assert (pow2 64) as Hpow by (exists 6; split; [lia|reflexivity]).
  split_and!.
  - apply (proj1 (run_errors 64 0 8192 4096 100 (85 # 100) 16 1 100 300 123
                    true world0)). right. left. lia.
  - apply (proj1 (proj2 (run_errors 64 4 0 4096 100 (85 # 100) 16 1 100 300
                           123 true world0))); (lia || exact Hpow).
  - apply (proj2 (proj2 (run_errors 64 4 8192 4096 0 (85 # 100) 16 1 100 300
                           123 true world0))); (lia || exact Hpow).
Defined.

(** X18. A run with [show_progress] that returns has printed, last of
    all, the report of the final step, which reads 100% with a full bar,
    and then a line break. *)
Theorem progress_ends_full {G : Type} `{Random G} sets ways vpages page_size
    n_accesses locality_prob locality_window t_tlb t_mem t_pagewalk seed
    (w w' : World G) r :
  run_tlb_sim sets ways vpages page_size n_accesses locality_prob
    locality_window t_tlb t_mem t_pagewalk seed true w = (Ok r, w') →
  ∃ pre,
    stdout w'
    = stdout w ++ pre ++
      [String (Ascii.ascii_of_nat 13)
         "Progreso: [████████████████████████████████████████] 100%   ";
       newline].
Proof.
  intros Hrun.
  destruct (run_tlb_sim_inv _ _ _ _ _ _ _ _ _ _ _ _ _ _ _ Hrun)
    as (tlb & trace & Hinit & Hgen & _ & Hon).
  destruct (run_on_inv _ _ _ _ _ _ _ Hon) as (_ & _ & _ & _ & Hpos & _).
  unfold run_tlb_sim in Hrun. rewrite bind_lift, Hinit in Hrun.
  pose proof (generate_trace_seeded n_accesses vpages page_size locality_prob
                locality_window seed w) as Hseed.
  destruct (generate_trace _ _ _ _ _ _ w) as [gr w1] eqn:Hg.
  simpl in Hgen. subst gr.
  assert (stdout w1 = stdout w) as Hout by (by injection Hseed as _ ->).
  rewrite (bind_ok _ _ _ _ _ Hg) in Hrun.
  destruct (sim_loop true (Z.of_nat (length trace))
              (Z.max 1 (Z.of_nat (length trace) `div` 50))
              t_tlb t_mem t_pagewalk trace 1 (mkLoop tlb 0 0) w1)
    as [[st|e] w2] eqn:Hloop;
    [|by rewrite (bind_raise _ _ _ _ _ Hloop) in Hrun].
  rewrite (bind_ok _ _ _ _ _ Hloop), print_bind, !bind_lift in Hrun.
  destruct (py_truediv (l_hits st) _) as [hr|e]; [|done].
  rewrite bind_lift in Hrun.
  destruct (py_truediv (l_total_time st) _) as [em|e]; [|done].
  injection Hrun as _ <-. simpl.
  assert (trace ≠ []) as Hne by (intros ->; simpl in Hpos; lia).
  assert (1 + Z.of_nat (length trace) - 1 = Z.of_nat (length trace)) as Hlast
    by lia.
  destruct (sim_loop_last_line _ _ _ _ _ _ _ _ _ _ _ Hne Hlast Hloop)
    as [pre Hpre].
  exists pre. rewrite Hpre, Hout, progress_line_full by done.
  by rewrite <- !(assoc_L (++)).
Qed.

Lemma progress_ends_full_witness :
  ∃ pre,
    stdout (demo_run 2 true).2
    = stdout world0 ++ pre ++
      [String (Ascii.ascii_of_nat 13)
         "Progreso: [████████████████████████████████████████] 100%   ";
       newline].
Proof.
  apply (progress_ends_full 2 2 64 256 12 (85 # 100) 4 1 100 300 3 world0
           (demo_run 2 true).2 demo_result_2).
  vm_compute. reflexivity.
Defined.

(** ** The console helpers *)

Section AskIntFacts.
Context (py_int : string → option Z) (strip : string → string).
Context (prompt : string) (default minv maxv : option Z).

Let prompt_text : string := prompt +:+ " [" +:+ str_opt default +:+ "]: ".

Lemma ask_int_loop_accept line val lines out :
  accepts py_int strip default minv maxv line val →
  ask_int_loop py_int strip prompt default minv maxv (line :: lines) out
  = (Answer val, mkConsole lines (out ++ [prompt_text])).
Proof.
  intros (Hparse & Hlo & Hhi). simpl. rewrite Hparse.
  destruct minv as [lo|], maxv as [hi|];
    rewrite ?bool_decide_false by (try specialize (Hlo _ eq_refl);
                                   try specialize (Hhi _ eq_refl); lia);
    done.
Qed.

Lemma ask_int_loop_reject line lines out :
  (∀ val, ¬ accepts py_int strip default minv maxv line val) →
  ∃ msg,
    ask_int_loop py_int strip prompt default minv maxv (line :: lines) out
    = ask_int_loop py_int strip prompt default minv maxv lines
        (out ++ [prompt_text] ++ [msg]).
Proof.
  intros Hrej. simpl. unfold accepts in Hrej.
  destruct (if bool_decide (strip line = "") && bool_decide (default ≠ None)
            then default else py_int (strip line)) as [val|] eqn:Hparse.
  2: { eexists. by rewrite <- (assoc_L (++)). }
  specialize (Hrej val).
  destruct minv as [lo|], maxv as [hi|]; repeat case_bool_decide;
    try (eexists; by rewrite <- (assoc_L (++)));
    exfalso; apply Hrej; split_and!; try done;
    intros ? [= <-]; lia.
Qed.

Lemma ask_int_loop_answer lines out val c :
  ask_int_loop py_int strip prompt default minv maxv lines out
  = (Answer val, c) →
  ∃ bad good,
    lines = bad ++ good :: stdin c ∧
    accepts py_int strip default minv maxv good val.
Proof.
  revert out. induction lines as [|line lines IH]; intros out; [done|].
  simpl ask_int_loop.
  destruct (if bool_decide (strip line = "") && bool_decide (default ≠ None)
            then default else py_int (strip line)) as [v|] eqn:Hparse.
  2: { intros Hrec. destruct (IH _ Hrec) as (bad & good & -> & Hacc).
       by exists (line :: bad), good. }
  assert (∀ out',
            ask_int_loop py_int strip prompt default minv maxv lines out'
            = (Answer val, c) →
            ∃ bad good, line :: lines = bad ++ good :: stdin c ∧
              accepts py_int strip default minv maxv good val) as Hrec.
  { intros out' Hr. destruct (IH _ Hr) as (bad & good & -> & Hacc).
    by exists (line :: bad), good. }
  assert (∀ out', (∀ lo, minv = Some lo → lo ≤ v) →
            (∀ hi, maxv = Some hi → v ≤ hi) →
            (Answer v, mkConsole lines out') = (Answer val, c) →
            ∃ bad good, line :: lines = bad ++ good :: stdin c ∧
              accepts py_int strip default minv maxv good val) as Hnow.
  { intros out' Hlo Hhi [= <- <-]. exists [], line. split; [done|].
    by split_and!. }
  destruct minv as [lo|], maxv as [hi|]; repeat case_bool_decide;
    try (by apply Hrec);
    apply Hnow; intros ? [= <-]; lia.
Qed.

End AskIntFacts.

(** X19. A value [ask_int] returns respects the bounds it was given, and
    it is what some line of the input stands for: the default on a blank
    line, the line read as an integer otherwise.  The lines after that one
    are left unread. *)
Theorem ask_int_in_range py_int strip prompt default minv maxv c val c' :
  ask_int py_int strip prompt default minv maxv c = (Answer val, c') →
  (∀ lo, minv = Some lo → lo ≤ val) ∧
  (∀ hi, maxv = Some hi → val ≤ hi) ∧
  ∃ bad good,
    stdin c = bad ++ good :: stdin c' ∧
    ((strip good = "" ∧ default = Some val) ∨ py_int (strip good) = Some val).
Proof.
  unfold ask_int. intros Hask.
  destruct (ask_int_loop_answer _ _ _ _ _ _ _ _ _ _ Hask)
    as (bad & good & Hlines & Hparse & Hlo & Hhi).
  split_and!; [done..|]. exists bad, good. split; [done|].
  destruct (bool_decide (strip good = "")) eqn:Hblank;
    destruct (bool_decide (default ≠ None)) eqn:Hdef; simpl in Hparse;
    try (by right).
  left. by apply bool_decide_eq_true in Hblank.
Qed.

Lemma ask_int_in_range_witness :
  (∀ lo, Some 1 = Some lo → lo ≤ 8) ∧
  (∀ hi, Some 64 = Some hi → 8 ≤ hi) ∧
  ∃ bad good,
    ["abc"; "70"; " 8 "; "x"] = bad ++ good :: ["x"] ∧
    ((strip_spaces good = "" ∧ Some 4 = Some 8)
     ∨ dec_int (strip_spaces good) = Some 8).
Proof.
  apply (ask_int_in_range dec_int strip_spaces "Asociatividad (ways)"
           (Some 4) (Some 1) (Some 64)
           (mkConsole ["abc"; "70"; " 8 "; "x"] []) 8
           (ask_int dec_int strip_spaces "Asociatividad (ways)"
              (Some 4) (Some 1) (Some 64)
              (mkConsole ["abc"; "70"; " 8 "; "x"] [])).2).
  vm_compute. reflexivity.
Defined.

(** X20. [ask_int] returns at the first line it accepts: each line before
    it costs one prompt and one message, the accepted line one prompt, and
    the lines after it stay on the input. *)
Theorem ask_int_first_accepted py_int strip prompt default minv maxv c
    bad good rest val :
  stdin c = bad ++ good :: rest →
  Forall (λ line, ∀ v, ¬ accepts py_int strip default minv maxv line v) bad →
  accepts py_int strip default minv maxv good val →
  ∃ out,
    ask_int py_int strip prompt default minv maxv c
    = (Answer val, mkConsole rest out) ∧
    length out = (length (written c) + 2 * length bad + 1)%nat.
Proof.
  unfold ask_int. intros -> Hbad Hgood. generalize (written c) as out.
  induction Hbad as [|line bad Hline _ IH]; intros out.
  - simpl app. rewrite (ask_int_loop_accept _ _ _ _ _ _ _ _ _ _ Hgood).
    eexists. split; [done|]. rewrite length_app. simpl. lia.
  - simpl app.
    destruct (ask_int_loop_reject py_int strip prompt default minv maxv
                line (bad ++ good :: rest) out Hline) as [msg ->].
    destruct (IH (out ++ [prompt +:+ " [" +:+ str_opt default +:+ "]: "] ++ [msg]))
      as (out' & -> & Hlen).
    exists out'. split; [done|]. rewrite Hlen, !length_app. simpl. lia.
Qed.

Lemma ask_int_first_accepted_witness :
  ∃ out,
    ask_int dec_int strip_spaces "Asociatividad (ways)" (Some 4) (Some 1)
      (Some 64) (mkConsole ["abc"; "70"; ""; "x"] [])
    = (Answer 4, mkConsole ["x"] out) ∧
    length out = (length (@nil string) + 2 * length ["abc"; "70"] + 1)%nat.
Proof.
  apply (ask_int_first_accepted dec_int strip_spaces "Asociatividad (ways)"
           (Some 4) (Some 1) (Some 64) (mkConsole ["abc"; "70"; ""; "x"] [])
           ["abc"; "70"] "" ["x"] 4).
  - reflexivity.
  - repeat constructor; intros v (Hparse & Hlo & Hhi); vm_compute in Hparse;
      [discriminate|].
    injection Hparse as <-. specialize (Hhi 64 eq_refl). lia.
  - split_and!; [reflexivity|intros ? [= <-]; lia|intros ? [= <-]; lia].
Defined.

(** X21. When no line of the input is acceptable [ask_int] does not
    return a value: it reads every line, answers each with a message, and
    ends in the [EOFError] of the read after the last. *)
Theorem ask_int_eof py_int strip prompt default minv maxv c :
  Forall (λ line, ∀ v, ¬ accepts py_int strip default minv maxv line v)
    (stdin c) →
  ∃ out,
    ask_int py_int strip prompt default minv maxv c
    = (EOFError, mkConsole [] out) ∧
    length out = (length (written c) + 2 * length (stdin c) + 1)%nat.
Proof.
  unfold ask_int. intros Hbad. generalize (written c) as out.
  induction Hbad as [|line bad Hline _ IH]; intros out.
  - simpl. eexists. split; [done|]. rewrite length_app. simpl. lia.
  - destruct (ask_int_loop_reject py_int strip prompt default minv maxv
                line bad out Hline) as [msg ->].
    destruct (IH (out ++ [prompt +:+ " [" +:+ str_opt default +:+ "]: "] ++ [msg]))
      as (out' & -> & Hlen).
    exists out'. split; [done|]. rewrite Hlen, !length_app. simpl. lia.
Qed.

Lemma ask_int_eof_witness :
  ∃ out,
    ask_int dec_int strip_spaces "Costo t_mem" None (Some 1) None
      (mkConsole ["0"; ""] [])
    = (EOFError, mkConsole [] out) ∧
    length out = (length (@nil string) + 2 * length ["0"; ""] + 1)%nat.
Proof.
  apply (ask_int_eof dec_int strip_spaces "Costo t_mem" None (Some 1) None
           (mkConsole ["0"; ""] [])).
  repeat constructor; intros v (Hparse & Hlo & Hhi); vm_compute in Hparse;
    [|discriminate].
  injection Hparse as <-. specialize (Hlo 1 eq_refl). lia.
Defined.

(** X22. A value [ask_float] returns has passed both of its checks: it
    does not compare below [minv] and does not compare above [maxv], in
    the comparisons of the floats themselves. *)
Theorem ask_float_in_range {F : Type} (py_float : string → option F) strip
    float_str flt fgt prompt default minv maxv c val c' :
  ask_float py_float strip float_str flt fgt prompt default minv maxv c
  = (Answer val, c') →
  (∀ lo, minv = Some lo → flt val lo = false) ∧
  (∀ hi, maxv = Some hi → fgt val hi = false).
Proof.
  unfold ask_float. generalize (written c) as out.
  induction (stdin c) as [|line lines IH]; intros out; [done|].
  simpl ask_float_loop.
  destruct (if bool_decide (strip line = "") && bool_decide (default ≠ None)
            then default else py_float (strip line)) as [v|]; [|apply IH].
  destruct (match minv with Some lo => flt v lo | None => false end) eqn:Hlo;
    [apply IH|].
  destruct (match maxv with Some hi => fgt v hi | None => false end) eqn:Hhi;
    [apply IH|].
  intros [= <- _]. split.
  - by intros lo ->.
  - by intros hi ->.
Qed.

Lemma ask_float_in_range_witness :
  (∀ lo, Some (inject_Z 0) = Some lo → q_lt (inject_Z 1) lo = false) ∧
  (∀ hi, Some (inject_Z 1) = Some hi → q_gt (inject_Z 1) hi = false).
Proof.
  apply (ask_float_in_range q_float strip_spaces q_str q_lt q_gt
           "Prob. de localidad [0-1]" (Some (85 # 100)) (Some (inject_Z 0))
           (Some (inject_Z 1)) (mkConsole ["2"; "-1"; "x"; "1"] [])
           (inject_Z 1)
           (ask_float q_float strip_spaces q_str q_lt q_gt
              "Prob. de localidad [0-1]" (Some (85 # 100)) (Some (inject_Z 0))
              (Some (inject_Z 1)) (mkConsole ["2"; "-1"; "x"; "1"] [])).2).
  vm_compute. reflexivity.
Defined.

(** ** Rounding to doubles *)

Section Rounding.
Local Open Scope Q_scope.

Lemma rne_cases x :
  (rne x = Qfloor x ∧ x - inject_Z (Qfloor x) <= 1 # 2) ∨
  (rne x = (Qfloor x + 1)%Z ∧ 1 # 2 <= x - inject_Z (Qfloor x)).
Proof.
  unfold rne. destruct (Qcompare_spec (x - inject_Z (Qfloor x)) (1 # 2))
    as [Heq|Hlt|Hgt].
  - destruct (Z.even (Qfloor x)); [left|right]; split; try done;
      rewrite Heq; apply Qle_refl.
  - left. split; [done|]. by apply Qlt_le_weak.
  - right. split; [done|]. by apply Qlt_le_weak.
Qed.

Lemma rne_lower x : (Qfloor x ≤ rne x)%Z.
Proof. destruct (rne_cases x) as [[-> _]|[-> _]]; lia. Qed.

Lemma rne_upper x : (rne x ≤ Qfloor x + 1)%Z.
Proof. destruct (rne_cases x) as [[-> _]|[-> _]]; lia. Qed.

Lemma rne_mono x y : x <= y → (rne x ≤ rne y)%Z.
Proof.
  intros Hxy. pose proof (Qfloor_resp_le _ _ Hxy) as Hf.
  destruct (Z.eq_dec (Qfloor x) (Qfloor y)) as [Heq|Hne].
  2: { pose proof (rne_upper x). pose proof (rne_lower y). lia. }
  unfold rne. rewrite <- Heq.
  assert (x - inject_Z (Qfloor x) <= y - inject_Z (Qfloor x)) as Hr by lra.
  destruct (Qcompare_spec (x - inject_Z (Qfloor x)) (1 # 2)) as [Hx|Hx|Hx];
    destruct (Qcompare_spec (y - inject_Z (Qfloor x)) (1 # 2)) as [Hy|Hy|Hy];
    try destruct (Z.even (Qfloor x)); try lia; exfalso; lra.
Qed.

Lemma rne_int x k : x == inject_Z k → rne x = k.
Proof.
  intros Hx. unfold rne. rewrite (Qfloor_comp _ _ Hx), Qfloor_Z.
  destruct (Qcompare_spec (x - inject_Z k) (1 # 2)) as [H|H|H]; [|done|];
    exfalso; lra.
Qed.


Lemma Qpow2_pos k : 0 < 2 ^ k.
Proof. by apply Qpower_0_lt. Qed.

Lemma Qpow2_Z n : (0 ≤ n)%Z → 2 ^ n == inject_Z (2 ^ n).
Proof. intros Hn. by rewrite Zpower_Qpower. Qed.

Lemma Qpow2_plus n m : 2 ^ (n + m) == 2 ^ n * 2 ^ m.
Proof. by apply Qpower_plus. Qed.

Lemma Qpow2_succ k : 2 ^ (k + 1) == 2 * 2 ^ k.
Proof. rewrite Qpow2_plus. change (2 ^ 1) with 2. ring. Qed.

Lemma Qpow2_le n m : (n ≤ m)%Z → 2 ^ n <= 2 ^ m.
Proof. intros Hnm. by apply Qpower_le_compat_l. Qed.

Lemma Qpow2_lt n m : (n < m)%Z → 2 ^ n < 2 ^ m.
Proof. intros Hnm. by apply Qpower_lt_compat_l. Qed.

Lemma log2_bounds_Q a :
  (0 < a)%Z →
  2 ^ Z.log2 a <= inject_Z a ∧ inject_Z a < 2 * 2 ^ Z.log2 a.
Proof.
  intros Ha. pose proof (Z.log2_spec a Ha) as [Hlo Hhi].
  pose proof (Z.log2_nonneg a) as Hnn.
  rewrite Qpow2_Z by done. split.
  - by rewrite <- Zle_Qle.
  - change 2 with (inject_Z 2). rewrite <- inject_Z_mult, <- Zlt_Qlt.
    replace (2 * 2 ^ Z.log2 a)%Z with (2 ^ Z.succ (Z.log2 a))%Z; [done|].
    rewrite Z.pow_succ_r by done. done.
Qed.

Lemma ilog2_spec x : 0 < x → 2 ^ ilog2 x <= x ∧ x < 2 ^ (ilog2 x + 1).
Proof.
  intros Hx. destruct x as [a b].
  assert (0 < a)%Z as Ha by (unfold Qlt in Hx; simpl in Hx; lia).
  unfold ilog2. simpl Qnum. simpl Qden.
  set (la := Z.log2 a). set (lb := Z.log2 (Z.pos b)).
  destruct (log2_bounds_Q a Ha) as [Ha1 Ha2]. fold la in Ha1, Ha2.
  destruct (log2_bounds_Q (Z.pos b) ltac:(done)) as [Hb1 Hb2].
  fold lb in Hb1, Hb2.
  pose proof (Qpow2_pos la) as Hpa. pose proof (Qpow2_pos lb) as Hpb.
  assert (2 ^ (la - lb) * 2 ^ lb == 2 ^ la) as Hd.
  { rewrite <- Qpow2_plus. by replace (la - lb + lb)%Z with la by lia. }
  pose proof (Qpow2_pos (la - lb)) as Hpd.
  assert ((a # b) * inject_Z (Z.pos b) == inject_Z a) as Hab.
  { rewrite (Qmake_Qdiv a b). field. intros Hz.
    assert (0 < inject_Z (Z.pos b)) by (by rewrite <- (Zlt_Qlt 0)). lra. }
  set (x := a # b) in *. set (A := inject_Z a) in *.
  set (B := inject_Z (Z.pos b)) in *.
  set (P := 2 ^ la) in *. set (R := 2 ^ lb) in *. set (D := 2 ^ (la - lb)) in *.
  assert (0 < B) as HB by lra.
  assert (0 < R * B) as HRB by nra.
  assert (D < 2 * x) as Hlow.
  { apply (Qmult_lt_r _ _ (R * B) HRB).
    assert (D * (R * B) == P * B) as -> by (rewrite <- Hd; ring).
    assert (2 * x * (R * B) == 2 * A * R) as -> by (rewrite <- Hab; ring).
    nra. }
  assert (x < 2 * D) as Hhigh.
  { apply (Qmult_lt_r _ _ (R * B) HRB).
    assert (x * (R * B) == A * R) as -> by (rewrite <- Hab; ring).
    assert (2 * D * (R * B) == 2 * P * B) as -> by (rewrite <- Hd; ring).
    nra. }
  destruct (Qle_bool D x) eqn:Hle.
  - apply Qle_bool_iff in Hle. split; [done|]. by rewrite Qpow2_succ.
  - assert (x < D) as Hlt.
    { apply Qnot_le_lt. intros H. apply Qle_bool_iff in H. congruence. }
    replace (la - lb - 1 + 1)%Z with (la - lb)%Z by lia. split; [|done].
    assert (D == 2 * 2 ^ (la - lb - 1)) as HD.
    { unfold D. rewrite <- Qpow2_succ.
      by replace (la - lb - 1 + 1)%Z with (la - lb)%Z by lia. }
    lra.
Qed.

Lemma ilog2_unique x e : 0 < x → 2 ^ e <= x → x < 2 ^ (e + 1) → ilog2 x = e.
Proof.
  intros Hx Hlo Hhi. destruct (ilog2_spec x Hx) as [Hlo' Hhi'].
  destruct (Z.lt_total (ilog2 x) e) as [Hlt|[Heq|Hgt]]; [|done|]; exfalso.
  - pose proof (Qpow2_le (ilog2 x + 1) e ltac:(lia)). lra.
  - pose proof (Qpow2_le (e + 1) (ilog2 x) ltac:(lia)). lra.
Qed.

Lemma ilog2_mono x y : 0 < x → x <= y → (ilog2 x ≤ ilog2 y)%Z.
Proof.
  intros Hx Hxy. destruct (ilog2_spec x Hx) as [Hlo Hhi].
  destruct (ilog2_spec y ltac:(lra)) as [Hlo' Hhi'].
  destruct (Z_le_gt_dec (ilog2 x) (ilog2 y)) as [|Hgt]; [done|exfalso].
  pose proof (Qpow2_le (ilog2 y + 1) (ilog2 x) ltac:(lia)). lra.
Qed.


Lemma grid_scale m j u :
  (u ≤ j)%Z → inject_Z (m * 2 ^ (j - u)) * 2 ^ u == inject_Z m * 2 ^ j.
Proof.
  intros Huj. rewrite inject_Z_mult, <- Qpow2_Z by lia.
  rewrite <- Qmult_assoc, <- Qpow2_plus.
  by replace (j - u + u)%Z with j by lia.
Qed.

Lemma grid_div x m j u :
  (u ≤ j)%Z → x == inject_Z m * 2 ^ j → x / 2 ^ u == inject_Z (m * 2 ^ (j - u)).
Proof.
  intros Huj Hx. pose proof (Qpow2_pos u).
  apply (Qmult_inj_r _ _ (2 ^ u)); [lra|].
  rewrite grid_scale, Hx by done. field. lra.
Qed.

Lemma round_pos_grid_le x m j :
  (ulp_exp x ≤ j)%Z → x <= inject_Z m * 2 ^ j →
  round_pos x <= inject_Z m * 2 ^ j.
Proof.
  intros Hj Hx. unfold round_pos. set (u := ulp_exp x) in *.
  pose proof (Qpow2_pos u) as Hu.
  rewrite <- (grid_scale m j u Hj).
  apply Qmult_le_compat_r; [|lra]. rewrite <- Zle_Qle.
  rewrite <- (rne_int (inject_Z m * 2 ^ j / 2 ^ u) (m * 2 ^ (j - u)))
    by (by apply grid_div).
  apply rne_mono. apply Qmult_le_compat_r; [done|].
  apply Qinv_le_0_compat. lra.
Qed.

Lemma round_pos_grid_ge x m j :
  (ulp_exp x ≤ j)%Z → inject_Z m * 2 ^ j <= x →
  inject_Z m * 2 ^ j <= round_pos x.
Proof.
  intros Hj Hx. unfold round_pos. set (u := ulp_exp x) in *.
  pose proof (Qpow2_pos u) as Hu.
  rewrite <- (grid_scale m j u Hj).
  apply Qmult_le_compat_r; [|lra]. rewrite <- Zle_Qle.
  rewrite <- (rne_int (inject_Z m * 2 ^ j / 2 ^ u) (m * 2 ^ (j - u)))
    by (by apply grid_div).
  apply rne_mono. apply Qmult_le_compat_r; [done|].
  apply Qinv_le_0_compat. lra.
Qed.

Lemma round_pos_nonneg x : 0 <= x → 0 <= round_pos x.
Proof.
  intros Hx.
  assert (0 == inject_Z 0 * 2 ^ ulp_exp x) as -> by ring.
  apply round_pos_grid_ge; [done|]. by ring_simplify.
Qed.

Lemma round_pos_mono x y : 0 < x → x <= y → round_pos x <= round_pos y.
Proof.
  intros Hx Hxy. assert (0 < y) as Hy by lra.
  pose proof (ilog2_mono x y Hx Hxy) as He.
  destruct (Z.eq_dec (ulp_exp x) (ulp_exp y)) as [Heq|Hne].
  - unfold round_pos. rewrite <- Heq. pose proof (Qpow2_pos (ulp_exp x)).
    apply Qmult_le_compat_r; [|lra]. rewrite <- Zle_Qle.
    apply rne_mono. apply Qmult_le_compat_r; [done|].
    apply Qinv_le_0_compat. lra.
  - destruct (ilog2_spec x Hx) as [_ Hxhi].
    destruct (ilog2_spec y Hy) as [Hylo _].
    assert (ilog2 x < ilog2 y)%Z as Hlt by (unfold ulp_exp in Hne; lia).
    pose proof (Qpow2_le (ilog2 x + 1) (ilog2 y) ltac:(lia)) as Hp.
    apply Qle_trans with (inject_Z 1 * 2 ^ ilog2 y).
    + apply round_pos_grid_le; [unfold ulp_exp in *; lia|].
      change (inject_Z 1) with 1. lra.
    + apply round_pos_grid_ge; [unfold ulp_exp in *; lia|].
      change (inject_Z 1) with 1. lra.
Qed.

Lemma nearest_double_mono x y : x <= y → nearest_double x <= nearest_double y.
Proof.
  intros Hxy. unfold nearest_double.
  destruct (Qcompare_spec x 0) as [Hx|Hx|Hx];
    destruct (Qcompare_spec y 0) as [Hy|Hy|Hy]; try (exfalso; lra).
  - apply Qle_refl.
  - apply round_pos_nonneg. lra.
  - pose proof (round_pos_nonneg (- x)). lra.
  - pose proof (round_pos_mono (- y) (- x)). lra.
  - pose proof (round_pos_nonneg (- x)). pose proof (round_pos_nonneg y). lra.
  - by apply round_pos_mono.
Qed.


Lemma round_pos_grid_eq x m j :
  (ulp_exp x ≤ j)%Z → x == inject_Z m * 2 ^ j → round_pos x == x.
Proof.
  intros Hj Hx. apply Qle_antisym.
  - rewrite Hx at 2. apply round_pos_grid_le; [done|]. rewrite Hx. apply Qle_refl.
  - rewrite Hx at 1. apply round_pos_grid_ge; [done|]. rewrite Hx. apply Qle_refl.
Qed.

Lemma nearest_double_opp x : nearest_double (- x) == - nearest_double x.
Proof.
  unfold nearest_double.
  destruct (Qcompare_spec x 0) as [Hx|Hx|Hx];
    destruct (Qcompare_spec (- x) 0) as [Hy|Hy|Hy]; try (exfalso; lra).
  - ring.
  - ring.
  - assert (- - x = x) as ->; [|ring].
    destruct x as [a b]. unfold Qopp. simpl. by rewrite Z.opp_involutive.
Qed.

Lemma nearest_double_pow2 k : (-1074 ≤ k)%Z → nearest_double (2 ^ k) == 2 ^ k.
Proof.
  intros Hk. pose proof (Qpow2_pos k) as Hp. unfold nearest_double.
  destruct (Qcompare_spec (2 ^ k) 0) as [H|H|H]; try (exfalso; lra).
  apply (round_pos_grid_eq _ 1 k); [|change (inject_Z 1) with 1; ring].
  unfold ulp_exp.
  rewrite (ilog2_unique (2 ^ k) k); [lia|done|apply Qle_refl|].
  apply Qpow2_lt. lia.
Qed.

Lemma ilog2_below x k : 0 < x → x < 2 ^ k → (ilog2 x < k)%Z.
Proof.
  intros Hx Hlt. destruct (ilog2_spec _ Hx) as [Hlo _].
  destruct (Z_lt_ge_dec (ilog2 x) k) as [|Hge]; [done|exfalso].
  pose proof (Qpow2_le k (ilog2 x) ltac:(lia)). lra.
Qed.

Lemma nearest_double_nat k :
  (0 ≤ k ≤ 2 ^ 53)%Z → nearest_double (inject_Z k) == inject_Z k.
Proof.
  intros [Hk0 Hk]. destruct (Z.eq_dec k 0%Z) as [->|Hnz]; [done|].
  assert (0 < inject_Z k) as Hpos by (rewrite <- (Zlt_Qlt 0); lia).
  unfold nearest_double.
  destruct (Qcompare_spec (inject_Z k) 0) as [H|H|H]; try (exfalso; lra).
  destruct (Z.eq_dec k (2 ^ 53)%Z) as [->|Hne].
  - apply (round_pos_grid_eq _ 1 53).
    + assert (ilog2 (inject_Z (2 ^ 53)) < 54)%Z as He.
      { apply ilog2_below; [done|]. rewrite (Qpow2_Z 54) by done.
        by rewrite <- Zlt_Qlt. }
      unfold ulp_exp. lia.
    + rewrite (Qpow2_Z 53) by done. change (inject_Z 1) with 1. ring.
  - apply (round_pos_grid_eq _ k 0); [|change (2 ^ 0) with 1; ring].
    assert (ilog2 (inject_Z k) < 53)%Z as He.
    { apply ilog2_below; [done|]. rewrite Qpow2_Z by done.
      rewrite <- Zlt_Qlt. lia. }
    unfold ulp_exp. lia.
Qed.

Lemma nearest_double_int k :
  (Z.abs k ≤ 2 ^ 53)%Z → nearest_double (inject_Z k) == inject_Z k.
Proof.
  intros Hk. destruct (Z_le_gt_dec 0%Z k) as [Hpos|Hneg].
  - apply nearest_double_nat. lia.
  - assert (inject_Z k = - inject_Z (- k)) as Hopp
      by (unfold inject_Z, Qopp; simpl; by rewrite Z.opp_involutive).
    rewrite Hopp at 1. rewrite nearest_double_opp, nearest_double_nat by lia.
    by rewrite <- Hopp.
Qed.

Lemma nearest_double_bounded x k :
  (-1074 ≤ k)%Z → Qabs x <= 2 ^ k → Qabs (nearest_double x) <= 2 ^ k.
Proof.
  intros Hk Hx. apply Qabs_Qle_condition in Hx as [Hlo Hhi].
  apply Qabs_Qle_condition. split.
  - rewrite <- (nearest_double_pow2 k Hk), <- nearest_double_opp.
    by apply nearest_double_mono.
  - rewrite <- (nearest_double_pow2 k Hk). by apply nearest_double_mono.
Qed.

End Rounding.

Lemma nearest_double_comp x y :
  (x == y → nearest_double x == nearest_double y)%Q.
Proof.
  intros Hxy. apply Qle_antisym; apply nearest_double_mono; rewrite Hxy;
    apply Qle_refl.
Qed.

Lemma to_double_inv x d :
  to_double x = Ok d → d = nearest_double x ∧ (Qabs d < 2 ^ 1024)%Q.
Proof.
  unfold to_double.
  destruct (Qle_bool (2 ^ 1024) (Qabs (nearest_double x))) eqn:Hb; [done|].
  intros [= <-]. split; [done|]. apply Qnot_le_lt. intros Hle.
  apply Qle_bool_iff in Hle. congruence.
Qed.

Lemma to_double_ok x k :
  -1074 ≤ k < 1024 → (Qabs x <= 2 ^ k)%Q →
  to_double x = Ok (nearest_double x).
Proof.
  intros Hk Hx. unfold to_double.
  destruct (Qle_bool (2 ^ 1024) (Qabs (nearest_double x))) eqn:Hb; [|done].
  exfalso. apply Qle_bool_iff in Hb.
  pose proof (nearest_double_bounded x k ltac:(lia) Hx) as Hnd.
  pose proof (Qpow2_lt k 1024 ltac:(lia)) as Hlt.
  apply (Qlt_irrefl (2 ^ 1024)).
  eapply Qle_lt_trans; [exact Hb|]. eapply Qle_lt_trans; [exact Hnd|exact Hlt].
Qed.

Lemma as_doubles_inv r0 r :
  as_doubles r0 = Ok r →
  accesses r = accesses r0 ∧ hits r = hits r0 ∧ misses r = misses r0 ∧
  params r = params r0 ∧
  hit_rate r = nearest_double (hit_rate r0) ∧
  EMAT r = nearest_double (EMAT r0).
Proof.
  unfold as_doubles.
  destruct (to_double (hit_rate r0)) as [hr|e] eqn:Hhr; [|done]. simpl.
  destruct (to_double (EMAT r0)) as [em|e] eqn:Hem; [|done]. simpl.
  intros [= <-]. simpl.
  apply to_double_inv in Hhr as [-> _]. apply to_double_inv in Hem as [-> _].
  done.
Qed.

Lemma run_tlb_sim_doubles_inv {G : Type} `{Random G} sets ways vpages
    page_size n_accesses locality_prob locality_window t_tlb t_mem t_pagewalk
    seed show_progress (w w' : World G) r :
  run_tlb_sim_doubles sets ways vpages page_size n_accesses locality_prob
    locality_window t_tlb t_mem t_pagewalk seed show_progress w = (Ok r, w') →
  ∃ r0,
    run_tlb_sim sets ways vpages page_size n_accesses locality_prob
      locality_window t_tlb t_mem t_pagewalk seed show_progress w
    = (Ok r0, w') ∧
    as_doubles r0 = Ok r.
Proof.
  unfold run_tlb_sim_doubles.
  destruct (run_tlb_sim _ _ _ _ _ _ _ _ _ _ _ _ w) as [[r0|e] w1] eqn:Hrun.
  - rewrite (bind_ok _ _ _ _ _ Hrun). unfold lift. intros [= Hr <-].
    by exists r0.
  - by rewrite (bind_raise _ _ _ _ _ Hrun).
Qed.

(** ** The rates as doubles *)

(** [to_double] on a few quotients: [1/3] is 6004799503160661 / 2^54
    (printed 0.3333333333333333), [3612/12] is 301, [2^53 + 1] falls
    halfway between two doubles and goes to the even one, 2^53, and
    [10^400] is out of range. *)
Lemma to_double_examples :
  (∃ d, to_double (4 # 12) = Ok d ∧ (d == 6004799503160661 # 2 ^ 54)%Q) ∧
  (∃ d, to_double (3612 # 12) = Ok d ∧ (d == 301)%Q) ∧
  (∃ d, to_double (inject_Z (100 * (2 ^ 53 + 1)) / inject_Z 100) = Ok d ∧
        (d == inject_Z (2 ^ 53))%Q) ∧
  to_double (inject_Z (100 * 10 ^ 400) / inject_Z 100) = Raise OverflowError.
Proof.
  split_and!; [eexists; split; [vm_compute; reflexivity|reflexivity]..|].
  vm_compute. reflexivity.
Qed.

(** C6. The EMAT a run returns is a double, and it lies between the two
    costs [t_tlb + t_mem] and [t_tlb + t_pagewalk + t_mem] once these are
    rounded to doubles the way the EMAT is: between the smaller and the
    larger in general, with [t_tlb + t_mem] as the lower end when
    [t_pagewalk] is not negative.  When both costs are at most 2^53 in
    absolute value they are doubles themselves, and the EMAT lies between
    them as they are.  A returned result has at least one access. *)
Theorem emat_bounds {G : Type} `{Random G} sets ways vpages page_size
    n_accesses locality_prob locality_window t_tlb t_mem t_pagewalk seed
    show_progress (w w' : World G) r :
  run_tlb_sim_doubles sets ways vpages page_size n_accesses locality_prob
    locality_window t_tlb t_mem t_pagewalk seed show_progress w = (Ok r, w') →
  let all_hits := t_tlb + t_mem in
  let all_misses := t_tlb + t_pagewalk + t_mem in
  1 ≤ accesses r ∧
  (nearest_double (inject_Z (Z.min all_hits all_misses)) <= EMAT r)%Q ∧
  (EMAT r <= nearest_double (inject_Z (Z.max all_hits all_misses)))%Q ∧
  (0 ≤ t_pagewalk →
   (nearest_double (inject_Z all_hits) <= EMAT r)%Q ∧
   (EMAT r <= nearest_double (inject_Z all_misses))%Q) ∧
  (Z.abs all_hits ≤ 2 ^ 53 → Z.abs all_misses ≤ 2 ^ 53 →
   (inject_Z (Z.min all_hits all_misses) <= EMAT r)%Q ∧
   (EMAT r <= inject_Z (Z.max all_hits all_misses))%Q ∧
   (0 ≤ t_pagewalk →
    (inject_Z all_hits <= EMAT r)%Q ∧ (EMAT r <= inject_Z all_misses)%Q)).
Proof.
  intros Hrun a b.
  destruct (run_tlb_sim_doubles_inv _ _ _ _ _ _ _ _ _ _ _ _ _ _ _ Hrun)
    as (r0 & Hrun0 & Hd).
  destruct (as_doubles_inv _ _ Hd) as (-> & _ & _ & _ & _ & ->).
  destruct (exact_emat_bounds _ _ _ _ _ _ _ _ _ _ _ _ _ _ _ Hrun0)
    as (Hn & Hlo & Hhi & Hord). fold a b in Hlo, Hhi, Hord.
  assert (0 ≤ t_pagewalk →
          (nearest_double (inject_Z a) <= nearest_double (EMAT r0))%Q ∧
          (nearest_double (EMAT r0) <= nearest_double (inject_Z b))%Q) as Hord'.
  { intros Hpw. destruct (Hord Hpw). split; by apply nearest_double_mono. }
  split_and!; [done|by apply nearest_double_mono..|done|].
  intros Ha Hb.
  rewrite <- (nearest_double_int (Z.min a b)) by lia.
  rewrite <- (nearest_double_int (Z.max a b)) by lia.
  split_and!; [by apply nearest_double_mono..|].
  intros Hpw. rewrite <- (nearest_double_int a), <- (nearest_double_int b) by done.
  by apply Hord'.
Qed.

Lemma emat_bounds_witness :
  ∃ r w',
    run_tlb_sim_doubles 2 2 64 256 12 (85 # 100) 4 1 100 300 3 true world0
    = (Ok r, w') ∧
    1 ≤ accesses r ∧
    (nearest_double (inject_Z (Z.min (1 + 100) (1 + 300 + 100))) <= EMAT r)%Q ∧
    (EMAT r <= nearest_double (inject_Z (Z.max (1 + 100) (1 + 300 + 100))))%Q ∧
    (0 ≤ 300 →
     (nearest_double (inject_Z (1 + 100)) <= EMAT r)%Q ∧
     (EMAT r <= nearest_double (inject_Z (1 + 300 + 100)))%Q) ∧
    (Z.abs (1 + 100) ≤ 2 ^ 53 → Z.abs (1 + 300 + 100) ≤ 2 ^ 53 →
     (inject_Z (Z.min (1 + 100) (1 + 300 + 100)) <= EMAT r)%Q ∧
     (EMAT r <= inject_Z (Z.max (1 + 100) (1 + 300 + 100)))%Q ∧
     (0 ≤ 300 →
      (inject_Z (1 + 100) <= EMAT r)%Q ∧ (EMAT r <= inject_Z (1 + 300 + 100))%Q)).
Proof.
  eexists _, _. split; [vm_compute; reflexivity|].
  eapply (emat_bounds 2 2 64 256 12 (85 # 100) 4 1 100 300 3 true world0).
  vm_compute. reflexivity.
Defined.

(** With [t_tlb = 0], [t_mem = 2^53 + 1] and [t_pagewalk = 0] every
    access costs 2^53 + 1, and the EMAT returned is the double 2^53: below
    [t_tlb + t_mem]. *)
Lemma emat_below_hit_cost :
  ¬ (∀ r w',
       run_tlb_sim_doubles 2 2 64 256 12 (85 # 100) 4 0 (2 ^ 53 + 1) 0 3 false
         world0 = (Ok r, w') →
       (inject_Z (0 + (2 ^ 53 + 1)) <= EMAT r)%Q ∧
       (EMAT r <= inject_Z (0 + 0 + (2 ^ 53 + 1)))%Q).
Proof.
  intros Hclaim.
  edestruct Hclaim as [Hlo _]; [vm_compute; reflexivity|].
  vm_compute in Hlo. by apply Hlo.
Qed.

Lemma exact_hit_rate_range {G : Type} `{Random G} sets ways vpages page_size
    n_accesses locality_prob locality_window t_tlb t_mem t_pagewalk seed
    show_progress (w w' : World G) r0 :
  run_tlb_sim sets ways vpages page_size n_accesses locality_prob
    locality_window t_tlb t_mem t_pagewalk seed show_progress w = (Ok r0, w') →
  (0 <= hit_rate r0)%Q ∧ (hit_rate r0 <= 1)%Q ∧
  hit_rate r0 = (inject_Z (hits r0) / inject_Z (accesses r0))%Q ∧
  (EMAT r0 == inject_Z (t_tlb + t_mem)
              + inject_Z t_pagewalk
                * (inject_Z (misses r0) / inject_Z (accesses r0)))%Q.
Proof.
  intros Hrun.
  destruct (run_tlb_sim_inv _ _ _ _ _ _ _ _ _ _ _ _ _ _ _ Hrun)
    as (tlb & trace & _ & _ & _ & Hon).
  destruct (run_on_inv _ _ _ _ _ _ _ Hon) as (rs & tlb' & _ & Hlen & Hpos & ->).
  simpl. rewrite time_cost_split, Hlen.
  pose proof (hit_count_range rs) as Hh. rewrite Hlen in Hh.
  set (n := Z.of_nat (length trace)) in *. set (h := hit_count rs) in *.
  clearbody n h. split_and!; [| |done|].
  - change 0%Q with (inject_Z 0). apply Qle_div_l; lia.
  - change 1%Q with (inject_Z 1). apply Qle_div_r; lia.
  - destruct n as [|d|d]; [lia| |lia].
    unfold Qeq, Qplus, Qmult, Qdiv, Qinv, inject_Z. simpl. nia.
Qed.

(** X15. Called with a valid configuration, positive [vpages],
    [page_size] and [n_accesses], a [locality_window] that is not
    negative, and the two access costs at most 2^1023 in absolute value,
    [run_tlb_sim] returns a result: no division overflows.  The result
    carries the parameters of the call. *)
Theorem run_returns {G : Type} `{Random G} sets ways vpages page_size
    n_accesses locality_prob locality_window t_tlb t_mem t_pagewalk seed
    show_progress (w : World G) :
  0 < sets → pow2 sets → 0 < ways →
  0 < vpages → 0 < page_size → 0 < n_accesses → 0 ≤ locality_window →
  Z.abs (t_tlb + t_mem) ≤ 2 ^ 1023 →
  Z.abs (t_tlb + t_pagewalk + t_mem) ≤ 2 ^ 1023 →
  ∃ r w',
    run_tlb_sim_doubles sets ways vpages page_size n_accesses locality_prob
      locality_window t_tlb t_mem t_pagewalk seed show_progress w = (Ok r, w') ∧
    params r = mkParams sets ways vpages page_size n_accesses locality_prob
                 locality_window t_tlb t_mem t_pagewalk seed.
Proof.
  intros Hs Hpow Hw Hv Hp Hn Hlw Ha Hb.
  destruct (run_tlb_sim_ok sets ways vpages page_size n_accesses locality_prob
              locality_window t_tlb t_mem t_pagewalk seed show_progress w)
    as (r0 & w' & Hrun); [done..|].
  destruct (exact_hit_rate_range _ _ _ _ _ _ _ _ _ _ _ _ _ _ _ Hrun)
    as (Hhr0 & Hhr1 & _ & _).
  destruct (exact_emat_bounds _ _ _ _ _ _ _ _ _ _ _ _ _ _ _ Hrun)
    as (_ & Hlo & Hhi & _).
  assert (params r0 = mkParams sets ways vpages page_size n_accesses
                        locality_prob locality_window t_tlb t_mem t_pagewalk
                        seed) as Hparams.
  { destruct (run_tlb_sim_inv _ _ _ _ _ _ _ _ _ _ _ _ _ _ _ Hrun)
      as (tlb & trace & _ & _ & _ & Hon).
    by destruct (run_on_inv _ _ _ _ _ _ _ Hon) as (rs & tlb' & _ & _ & _ & ->). }
  assert (to_double (hit_rate r0) = Ok (nearest_double (hit_rate r0))) as Hhr.
  { apply (to_double_ok _ 0); [lia|]. apply Qabs_Qle_condition.
    change (2 ^ 0)%Q with 1%Q. split; [|done].
    apply Qle_trans with 0%Q; [done|done]. }
  assert (to_double (EMAT r0) = Ok (nearest_double (EMAT r0))) as Hem.
  { apply (to_double_ok _ 1023); [lia|]. apply Qabs_Qle_condition.
    rewrite (Qpow2_Z 1023) by done. split.
    - eapply Qle_trans; [|exact Hlo].
      rewrite <- inject_Z_opp, <- Zle_Qle. lia.
    - eapply Qle_trans; [exact Hhi|]. rewrite <- Zle_Qle. lia. }
  eexists _, w'. unfold run_tlb_sim_doubles.
  rewrite (bind_ok _ _ _ _ _ Hrun). unfold lift, as_doubles.
  rewrite Hhr. simpl. rewrite Hem. simpl. done.
Qed.

Lemma run_returns_witness :
  ∃ r w',
    run_tlb_sim_doubles 64 4 8192 4096 30000 (85 # 100) 16 1 100 300 123 false
      world0 = (Ok r, w') ∧
    params r = mkParams 64 4 8192 4096 30000 (85 # 100) 16 1 100 300 123.
Proof.
  apply (run_returns 64 4 8192 4096 30000 (85 # 100) 16 1 100 300 123 false
           world0); try lia.
  exists 6. split; [lia|reflexivity].
Defined.

(** X17. The EMAT a run returns is the double nearest to [t_tlb + t_mem +
    t_pagewalk * misses / accesses], the hit cost plus the page-walk cost
    weighted by the miss rate; the hit rate it returns is the double
    nearest to [hits / accesses] and lies in [0, 1]. *)
Theorem emat_formula {G : Type} `{Random G} sets ways vpages page_size
    n_accesses locality_prob locality_window t_tlb t_mem t_pagewalk seed
    show_progress (w w' : World G) r :
  run_tlb_sim_doubles sets ways vpages page_size n_accesses locality_prob
    locality_window t_tlb t_mem t_pagewalk seed show_progress w = (Ok r, w') →
  (EMAT r == nearest_double
               (inject_Z (t_tlb + t_mem)
                + inject_Z t_pagewalk
                  * (inject_Z (misses r) / inject_Z (accesses r))))%Q ∧
  hit_rate r = nearest_double (inject_Z (hits r) / inject_Z (accesses r)) ∧
  (0 <= hit_rate r)%Q ∧ (hit_rate r <= 1)%Q.
Proof.
  intros Hrun.
  destruct (run_tlb_sim_doubles_inv _ _ _ _ _ _ _ _ _ _ _ _ _ _ _ Hrun)
    as (r0 & Hrun0 & Hd).
  destruct (as_doubles_inv _ _ Hd) as (-> & -> & -> & _ & -> & ->).
  destruct (exact_hit_rate_range _ _ _ _ _ _ _ _ _ _ _ _ _ _ _ Hrun0)
    as (Hhr0 & Hhr1 & Hhr & Hem).
  split_and!.
  - by apply nearest_double_comp.
  - by rewrite Hhr.
  - change 0%Q with (nearest_double 0). by apply nearest_double_mono.
  - rewrite <- (nearest_double_int 1) by done. by apply nearest_double_mono.
Qed.

Lemma emat_formula_witness :
  ∃ r w',
    run_tlb_sim_doubles 2 2 64 256 12 (85 # 100) 4 1 100 300 3 true world0
    = (Ok r, w') ∧
    (EMAT r == nearest_double
                 (inject_Z (1 + 100)
                  + inject_Z 300 * (inject_Z (misses r) / inject_Z (accesses r))))%Q ∧
    hit_rate r = nearest_double (inject_Z (hits r) / inject_Z (accesses r)) ∧
    (0 <= hit_rate r)%Q ∧ (hit_rate r <= 1)%Q.
Proof.
  eexists _, _. split; [vm_compute; reflexivity|].
  eapply (emat_formula 2 2 64 256 12 (85 # 100) 4 1 100 300 3 true world0).
  vm_compute. reflexivity.
Defined.

Lemma exact_hits_mono {G : Type} `{Random G} sets vpages page_size n_accesses
    locality_prob locality_window t_tlb t_mem t_pagewalk seed ways1 ways2
    show1 show2 (w1 w1' w2 w2' : World G) r1 r2 :
  ways1 ≤ ways2 →
  run_tlb_sim sets ways1 vpages page_size n_accesses locality_prob
    locality_window t_tlb t_mem t_pagewalk seed show1 w1 = (Ok r1, w1') →
  run_tlb_sim sets ways2 vpages page_size n_accesses locality_prob
    locality_window t_tlb t_mem t_pagewalk seed show2 w2 = (Ok r2, w2') →
  accesses r2 = accesses r1 ∧ 0 < accesses r1 ∧ hits r1 ≤ hits r2.
Proof.
  intros Hways Hrun1 Hrun2.
  destruct (run_tlb_sim_inv _ _ _ _ _ _ _ _ _ _ _ _ _ _ _ Hrun1)
    as (tlb1 & trace & Hinit1 & Hgen1 & _ & Hon1).
  destruct (run_tlb_sim_inv _ _ _ _ _ _ _ _ _ _ _ _ _ _ _ Hrun2)
    as (tlb2 & trace2 & Hinit2 & Hgen2 & _ & Hon2).
  rewrite (generate_trace_fresh _ _ _ _ _ _ w2 w1), Hgen1 in Hgen2.
  injection Hgen2 as <-.
  destruct (run_on_inv _ _ _ _ _ _ _ Hon1) as (rs1 & t1 & Hall1 & _ & Hpos & ->).
  destruct (run_on_inv _ _ _ _ _ _ _ Hon2) as (rs2 & t2 & Hall2 & _ & _ & ->).
  destruct (init_models _ _ _ Hinit1) as (Hshape1 & Hm1 & _).
  destruct (init_models _ _ _ Hinit2) as (Hshape2 & Hm2 & _).
  destruct (access_all_mono sets ways1 ways2 _ _ _ (trace.*1) Hways
              Hshape1 Hshape2 Hm1 Hm2)
    as (rs1' & t1' & rs2' & t2' & Hall1' & Hall2' & _ & _ & Hle).
  rewrite Hall1 in Hall1'. rewrite Hall2 in Hall2'.
  injection Hall1' as <- _. injection Hall2' as <- _. done.
Qed.

(** X23. On the doubles the runs return, too, more ways never lower the
    hit rate: of two returned runs that differ only in [ways], the one with
    the larger [ways] has at least the hits and at least the [hit_rate] of
    the other. *)
Theorem more_ways_no_lower_double {G : Type} `{Random G} sets vpages page_size
    n_accesses locality_prob locality_window t_tlb t_mem t_pagewalk seed
    ways1 ways2 show1 show2 (w1 w1' w2 w2' : World G) r1 r2 :
  ways1 ≤ ways2 →
  run_tlb_sim_doubles sets ways1 vpages page_size n_accesses locality_prob
    locality_window t_tlb t_mem t_pagewalk seed show1 w1 = (Ok r1, w1') →
  run_tlb_sim_doubles sets ways2 vpages page_size n_accesses locality_prob
    locality_window t_tlb t_mem t_pagewalk seed show2 w2 = (Ok r2, w2') →
  hits r1 ≤ hits r2 ∧ (hit_rate r1 <= hit_rate r2)%Q.
Proof.
  intros Hways Hrun1 Hrun2.
  destruct (run_tlb_sim_doubles_inv _ _ _ _ _ _ _ _ _ _ _ _ _ _ _ Hrun1)
    as (e1 & He1 & Hd1).
  destruct (run_tlb_sim_doubles_inv _ _ _ _ _ _ _ _ _ _ _ _ _ _ _ Hrun2)
    as (e2 & He2 & Hd2).
  destruct (as_doubles_inv _ _ Hd1) as (_ & -> & _ & _ & -> & _).
  destruct (as_doubles_inv _ _ Hd2) as (_ & -> & _ & _ & -> & _).
  destruct (exact_hits_mono _ _ _ _ _ _ _ _ _ _ _ _ _ _ _ _ _ _ _ _
              Hways He1 He2) as (Hacc & Hpos & Hle).
  split; [done|]. apply nearest_double_mono.
  destruct (exact_hit_rate_range _ _ _ _ _ _ _ _ _ _ _ _ _ _ _ He1)
    as (_ & _ & -> & _).
  destruct (exact_hit_rate_range _ _ _ _ _ _ _ _ _ _ _ _ _ _ _ He2)
    as (_ & _ & -> & _).
  rewrite Hacc. by apply Qdiv_le_mono.
Qed.

Lemma more_ways_no_lower_double_witness :
  ∃ r1 r2,
    (run_tlb_sim_doubles 2 1 64 256 12 (85 # 100) 4 1 100 300 3 false world0).1
    = Ok r1 ∧
    (run_tlb_sim_doubles 2 2 64 256 12 (85 # 100) 4 1 100 300 3 true world0).1
    = Ok r2 ∧
    hits r1 ≤ hits r2 ∧ (hit_rate r1 <= hit_rate r2)%Q.
Proof.
  eexists _, _. split; [vm_compute; reflexivity|].
  split; [vm_compute; reflexivity|].
  eapply (more_ways_no_lower_double 2 64 256 12 (85 # 100) 4 1 100 300 3 1 2
            false true world0 _ world0 _).
  - lia.
  - vm_compute. reflexivity.
  - vm_compute. reflexivity.
Defined.
